(** * promcache: a caching reverse proxy for time-series query APIs

A shallow embedding of the three core packages of the repository:

- [cache]  (internal/cache): the TTL key-value store;
- [proxy]  (pkg/proxy): cache-key generation and the cache-aside
  request handler;
- [Go]: the fragments of the Go runtime and standard library that the
  two packages call (int64 and float64 arithmetic, [sort.Strings],
  [strings.EqualFold], [http.Header], [url.Values], [http.Error]).

Strings are byte strings, exactly as in Go: [string] is a list of 8-bit
[ascii] and its order [String.le] compares byte by byte.  Maps are
[gmap]s.  Wall-clock readings, the upstream round trip and the JSON codec
are inputs of the model. *)

From Stdlib Require Import ZArith QArith Qround Qpower Lia Strings.Byte DecimalString.
From Stdlib Require Import Floats.SpecFloat Strings.Ascii.
From stdpp Require Import base gmap strings list sorting fin_maps.

Set Default Proof Using "Type".

Local Close Scope Q_scope.
Local Open Scope Z_scope.

(** ** The Go runtime and library fragments used by the code *)

Module Go.

(** *** int64: two's-complement wrap-around *)

Definition MinInt64 : Z := - 2 ^ 63.
Definition MaxInt64 : Z := 2 ^ 63 - 1.

Definition wrap64 (z : Z) : Z := (z + 2 ^ 63) mod 2 ^ 64 - 2 ^ 63.

Definition add64 (a b : Z) : Z := wrap64 (a + b).
Definition sub64 (a b : Z) : Z := wrap64 (a - b).
Definition mul64 (a b : Z) : Z := wrap64 (a * b).
(** Go's [/] truncates toward zero.  Division by zero panics; the only
    division in the code is guarded by [ttlSeconds > 0]. *)
Definition quot64 (a b : Z) : Z := wrap64 (Z.quot a b).

Definition in_int64 (z : Z) : Prop := MinInt64 <= z <= MaxInt64.

(** *** float64: IEEE 754 binary64, round to nearest even *)

Definition float64 : Type := spec_float.

Definition prec : Z := 53.
Definition emax : Z := 1024.

(** [float64(z)] for an integer [z]. *)
Definition float64_of_int (z : Z) : float64 := binary_normalize prec emax z 0 false.
Definition fadd : float64 -> float64 -> float64 := SFadd prec emax.
Definition fdiv : float64 -> float64 -> float64 := SFdiv prec emax.

(** The integer part of a finite float (fraction discarded, toward zero). *)
Definition float64_trunc (f : float64) : option Z :=
  match f with
  | S754_zero _ => Some 0
  | S754_finite s m e =>
      Some (cond_Zopp s (if 0 <=? e then Z.pos m * 2 ^ e else Z.pos m / 2 ^ (- e)))
  | S754_infinity _ | S754_nan => None
  end.

(** [int64(f)].  When the integer part does not fit, or [f] is an infinity
    or a NaN, the language leaves the result to the implementation; the
    value below is the one produced on amd64. *)
Definition int64_of_float64 (f : float64) : Z :=
  match float64_trunc f with
  | Some z => if (MinInt64 <=? z) && (z <=? MaxInt64) then z else MinInt64
  | None => MinInt64
  end.

(** The exact rational value of a finite float. *)
Definition float64_value (f : float64) : option Q :=
  match f with
  | S754_zero _ => Some (0 # 1)%Q
  | S754_finite s m e =>
      Some (Qmult (inject_Z (cond_Zopp s (Z.pos m))) (Qpower (2 # 1)%Q e))
  | S754_infinity _ | S754_nan => None
  end.

(** *** time.Duration: int64 nanoseconds *)

Definition Second : Z := 1000000000.

(** [d.Seconds()]: [float64(d / Second) + float64(d % Second) / 1e9]. *)
Definition Duration_Seconds (d : Z) : float64 :=
  fadd (float64_of_int (Z.quot d Second))
       (fdiv (float64_of_int (Z.rem d Second)) (float64_of_int Second)).

(** *** strconv.FormatInt(z, 10) *)

Definition FormatInt (z : Z) : string := NilZero.string_of_int (Z.to_int z).

(** *** sort.Strings: ascending byte-wise order *)

Definition sort_Strings (l : list string) : list string := merge_sort String.le l.

(** *** strings.EqualFold on ASCII text (HTTP field names are ASCII tokens) *)

Definition is_upper (c : ascii) : bool :=
  let n := N_of_ascii c in ((65 <=? n) && (n <=? 90))%N.
Definition is_lower (c : ascii) : bool :=
  let n := N_of_ascii c in ((97 <=? n) && (n <=? 122))%N.
Definition to_lower (c : ascii) : ascii :=
  if is_upper c then ascii_of_N (N_of_ascii c + 32) else c.
Definition to_upper (c : ascii) : ascii :=
  if is_lower c then ascii_of_N (N_of_ascii c - 32) else c.

Fixpoint EqualFold (s t : string) : bool :=
  match s, t with
  | EmptyString, EmptyString => true
  | String a s', String b t' =>
      bool_decide (to_lower a = to_lower b) && EqualFold s' t'
  | _, _ => false
  end.

(** *** net/textproto: canonical header keys *)

(** RFC 7230 [tchar]. *)
Definition validHeaderFieldByte (c : ascii) : bool :=
  let n := N_of_ascii c in
  (((48 <=? n) && (n <=? 57)) || is_upper c || is_lower c
   || bool_decide (c ∈ String.list_ascii_of_string "!#$%&'*+-.^_`|~"))%N.

Fixpoint all_bytes (P : ascii -> bool) (s : string) : bool :=
  match s with
  | EmptyString => true
  | String c s' => P c && all_bytes P s'
  end.

(** First letter and every letter after a dash in upper case, the others
    in lower case. *)
Fixpoint canonicalize (upper : bool) (s : string) : string :=
  match s with
  | EmptyString => EmptyString
  | String c s' =>
      let c' := if upper then to_upper c else to_lower c in
      String c' (canonicalize (bool_decide (c' = "-"%char)) s')
  end.

(** A key holding a byte that is no [tchar] is returned unchanged. *)
Definition CanonicalMIMEHeaderKey (s : string) : string :=
  if all_bytes validHeaderFieldByte s then canonicalize true s else s.

(** *** http.Header and url.Values: map[string][]string *)

Abbreviation Header := (gmap string (list string)).
Abbreviation Values := (gmap string (list string)).

Definition Header_Values (h : Header) (key : string) : list string :=
  default [] (h !! key).

Definition Header_Add (h : Header) (key value : string) : Header :=
  let k := CanonicalMIMEHeaderKey key in
  <[k := Header_Values h k ++ [value]]> h.

Definition Header_Set (h : Header) (key value : string) : Header :=
  <[CanonicalMIMEHeaderKey key := [value]]> h.

Definition Header_Del (h : Header) (key : string) : Header :=
  delete (CanonicalMIMEHeaderKey key) h.

(** [v.Get(key)]: the first value of [key], or the empty string. *)
Definition Values_Get (v : Values) (key : string) : string :=
  match v !! key with
  | Some (x :: _) => x
  | _ => ""
  end.

(** [v.Set(key, value)]: the value list of [key] becomes [[value]]. *)
Definition Values_Set (v : Values) (key value : string) : Values :=
  <[key := [value]]> v.

Definition Values_Add (v : Values) (key value : string) : Values :=
  <[key := default [] (v !! key) ++ [value]]> v.

(** [url.ParseQuery] on the decoded name-value pairs of a raw query, in
    their order of appearance: each pair is appended to its name's list. *)
Definition ParseQuery (pairs : list (string * string)) : Values :=
  foldl (fun m kv => Values_Add m kv.1 kv.2) ∅ pairs.

(** *** http.ResponseWriter *)

Record ResponseWriter := {
  wHeader : Header;
  wStatus : option Z;
  wBody   : list byte
}.

Definition newResponseWriter : ResponseWriter :=
  {| wHeader := ∅; wStatus := None; wBody := [] |}.

Definition w_Header_Add (key value : string) (w : ResponseWriter) : ResponseWriter :=
  {| wHeader := Header_Add (wHeader w) key value; wStatus := wStatus w; wBody := wBody w |}.

Definition w_Header_Set (key value : string) (w : ResponseWriter) : ResponseWriter :=
  {| wHeader := Header_Set (wHeader w) key value; wStatus := wStatus w; wBody := wBody w |}.

Definition w_Header_Del (key : string) (w : ResponseWriter) : ResponseWriter :=
  {| wHeader := Header_Del (wHeader w) key; wStatus := wStatus w; wBody := wBody w |}.

(** Only the first [WriteHeader] takes effect. *)
Definition WriteHeader (code : Z) (w : ResponseWriter) : ResponseWriter :=
  match wStatus w with
  | Some _ => w
  | None => {| wHeader := wHeader w; wStatus := Some code; wBody := wBody w |}
  end.

Definition StatusOK : Z := 200.
Definition StatusInternalServerError : Z := 500.
Definition StatusBadGateway : Z := 502.
Definition MethodGet : string := "GET".

(** A [Write] before any [WriteHeader] sends status 200 first. *)
Definition Write (b : list byte) (w : ResponseWriter) : ResponseWriter :=
  let w' := WriteHeader StatusOK w in
  {| wHeader := wHeader w'; wStatus := wStatus w'; wBody := wBody w' ++ b |}.

(** [http.Error(w, msg, code)]. *)
Definition Error (msg : string) (code : Z) (w : ResponseWriter) : ResponseWriter :=
  let w := w_Header_Del "Content-Length" w in
  let w := w_Header_Set "Content-Type" "text/plain; charset=utf-8" w in
  let w := w_Header_Set "X-Content-Type-Options" "nosniff" w in
  let w := WriteHeader code w in
  Write (String.list_byte_of_string (msg +:+ String "010"%char "")) w.

End Go.

(** ** Package cache: the TTL store *)

Module cache.

(** Item represents a cached item with expiration. *)
Record Item := {
  Value      : list byte;
  Expiration : Z            (* UnixNano *)
}.

(** Cache: the items and the configured lifetime (nanoseconds).  The lock
    and the logger carry no data of the model. *)
Record Cache := {
  items : gmap string Item;
  ttl   : Z
}.

Definition New (ttl : Z) : Cache := {| items := ∅; ttl := ttl |}.

(** Every method is a state transformer on the cache; [now] is the reading
    of [time.Now().UnixNano()] taken inside the method. *)

Definition Get (now : Z) (key : string) (c : Cache) : (list byte * bool) * Cache :=
  match items c !! key with
  | None => (([], false), c)
  | Some item =>
      if bool_decide (now > Expiration item)
      then (([], false), c)
      else ((Value item, true), c)
  end.

Definition Set_ (now : Z) (key : string) (value : list byte) (c : Cache) : Cache :=
  {| items := <[key := {| Value := value; Expiration := now + ttl c |}]> (items c);
     ttl := ttl c |}.

Definition Delete (key : string) (c : Cache) : Cache :=
  {| items := delete key (items c); ttl := ttl c |}.

(** One sweep: every item with [now > Expiration] is deleted.  [New] starts
    a ticker that runs a sweep every [ttl / 2]; in the model a sweep is a
    step of its own that may be taken between two requests. *)
Definition cleanup (now : Z) (c : Cache) : Cache :=
  {| items := filter (fun kv : string * Item => ¬ (now > Expiration kv.2)) (items c);
     ttl := ttl c |}.

Definition TTL (c : Cache) : Z := ttl c.

(** Keys in the (unspecified) iteration order of the map. *)
Definition Keys (c : Cache) : list string := (map_to_list (items c)).*1.

End cache.

(** ** Package proxy: key generation and the cache-aside handler *)

Module proxy.
Import Go.

(** Headers that shouldn't be cached. *)
Definition skipCacheHeaders : list string :=
  ["Date"; "Connection"; "Transfer-Encoding"; "Keep-Alive"].

(** Response represents a cached HTTP response. *)
Record Response := {
  Headers    : Header;
  StatusCode : Z;
  Body       : list byte
}.

(** HTTPCacheProxy.  The cache is threaded through the handler as state;
    the HTTP client and the logger carry no data of the model. *)
Record HTTPCacheProxy := {
  upstreamURL : string;
  cacheTTL    : Z            (* time.Duration, nanoseconds *)
}.

Definition New (upstreamURL : string) (c : cache.Cache) : HTTPCacheProxy :=
  {| upstreamURL := upstreamURL; cacheTTL := cache.TTL c |}.

(** The parts of an inbound [*http.Request] the handler reads.  [URL_pairs]
    are the decoded name-value pairs of the raw query in their order of
    appearance; [r.URL.Query()] groups them by name. *)
Record Request := {
  Method    : string;
  URL_Path  : string;
  URL_pairs : list (string * string)
}.

Definition URL_Query (r : Request) : Values := ParseQuery (URL_pairs r).

(** The upstream [*http.Response]: status and headers (the body is read
    separately). *)
Record HTTPResponse := {
  resp_StatusCode : Z;
  resp_Header     : Header
}.

(** What the upstream round trip of one request comes to. *)
Inductive Upstream :=
| PrepareFailed                                   (* prepareUpstreamRequest returned an error *)
| DoFailed                                        (* p.client.Do returned an error *)
| ReadFailed (resp : HTTPResponse)                (* io.ReadAll(resp.Body) returned an error *)
| Responded (resp : HTTPResponse) (respBody : list byte).

(** The readings of the environment during one request. *)
Record Env := {
  t_lookup  : Z;          (* time.Now().UnixNano() inside Cache.Get *)
  t_store   : Z;          (* time.Now().UnixNano() inside Cache.Set *)
  roundtrip : Upstream
}.

(** The state one request acts on: the response writer, the shared cache,
    and the number of upstream calls issued. *)
Record World := {
  w     : ResponseWriter;
  c     : cache.Cache;
  calls : nat
}.

Section Handler.

(** Library code the handler calls: [strconv.ParseFloat(s, 64)],
    [json.Marshal] and [json.Unmarshal] on [Response]; [None] is a
    non-nil error. *)
Variable ParseFloat : string -> option float64.
Variable Marshal    : Response -> option (list byte).
Variable Unmarshal  : list byte -> option Response.

(** *** Cache keys *)

(** roundTimeParameter rounds a time parameter to the nearest TTL
    boundary. *)
Definition roundTimeParameter (query : Values) (paramName : string)
    (ttlSeconds : Z) (roundUp : bool) : Values :=
  let paramStr := Values_Get query paramName in
  if bool_decide (paramStr = "") then query else
  match ParseFloat paramStr with
  | None => query
  | Some paramTime =>
      let roundedTime :=
        if roundUp
        then mul64 (quot64 (sub64 (add64 (int64_of_float64 paramTime) ttlSeconds) 1)
                           ttlSeconds) ttlSeconds
        else mul64 (quot64 (int64_of_float64 paramTime) ttlSeconds) ttlSeconds in
      Values_Set query paramName (FormatInt roundedTime)
  end.

(** The inner loop of normalizeQueryString: the pairs of the [i]-th key. *)
Definition writeValues (i : nat) (k : string) (values : list string) (b : string) : string :=
  foldl (fun b jv =>
           let b := if (0 <? i)%nat || (0 <? jv.1)%nat then b +:+ "&" else b in
           b +:+ k +:+ "=" +:+ jv.2)
        b (imap pair values).

(** normalizeQueryString creates a consistent string from URL query
    parameters. *)
Definition normalizeQueryString (query : Values) : string :=
  if bool_decide (size query = 0%nat) then "" else
  let keys := sort_Strings (map_to_list query).*1 in
  foldl (fun b ik => writeValues ik.1 ik.2 (sort_Strings (query !!! ik.2)) b)
        "" (imap pair keys).

Definition ttlSeconds (p : HTTPCacheProxy) : Z :=
  int64_of_float64 (Duration_Seconds (cacheTTL p)).

(** The query after the copy and the rounding of the time parameters. *)
Definition keyQuery (p : HTTPCacheProxy) (r : Request) : Values :=
  let query := (fun v => [] ++ v) <$> URL_Query r in
  if bool_decide (ttlSeconds p > 0) then
    let query := roundTimeParameter query "time" (ttlSeconds p) false in
    let query := roundTimeParameter query "start" (ttlSeconds p) false in
    roundTimeParameter query "end" (ttlSeconds p) true
  else query.

(** generateCacheKey creates a unique key for caching based on the
    request. *)
Definition generateCacheKey (p : HTTPCacheProxy) (r : Request) : string :=
  Method r +:+ ":" +:+ URL_Path r +:+ ":" +:+ normalizeQueryString (keyQuery p r).

(** *** Serving, forwarding, storing *)

(** [for name, values := range h { for _, value := range values {
    w.Header().Add(name, value) } }] *)
Definition copyHeaders (h : Header) (w : ResponseWriter) : ResponseWriter :=
  map_fold (fun name values w =>
              foldl (fun w value => w_Header_Add name value w) w values)
           w h.

(** tryServeCachedResponse attempts to serve a response from cache. *)
Definition tryServeCachedResponse (env : Env) (cacheKey : string) (s : World)
    : bool * World :=
  let '((data, found), c') := cache.Get (t_lookup env) cacheKey (c s) in
  let s := {| w := w s; c := c'; calls := calls s |} in
  if negb found then (false, s) else
  match Unmarshal data with
  | None => (false, s)
  | Some cachedResp =>
      let w1 := copyHeaders (Headers cachedResp) (w s) in
      let w2 := w_Header_Set "X-Cache" "HIT" w1 in
      let w3 := WriteHeader (StatusCode cachedResp) w2 in
      let w4 := Write (Body cachedResp) w3 in
      (true, {| w := w4; c := c s; calls := calls s |})
  end.

Definition shouldSkip (name : string) : bool :=
  existsb (fun skipHeader => EqualFold name skipHeader) skipCacheHeaders.

(** The header copy of cacheResponse. *)
Definition cachedHeaders (h : Header) : Header :=
  map_fold (fun name values acc =>
              if negb (shouldSkip name) then <[name := values]> acc else acc)
           ∅ h.

(** cacheResponse stores a successful response in the cache. *)
Definition cacheResponse (env : Env) (cacheKey : string) (resp : HTTPResponse)
    (body : list byte) (c : cache.Cache) : cache.Cache :=
  let cachedResp := {| Headers := cachedHeaders (resp_Header resp);
                       StatusCode := resp_StatusCode resp;
                       Body := body |} in
  match Marshal cachedResp with
  | None => c
  | Some cachedData => cache.Set_ (t_store env) cacheKey cachedData c
  end.

(** writeResponse sends the response to the client. *)
Definition writeResponse (resp : HTTPResponse) (body : list byte)
    (w : ResponseWriter) : ResponseWriter :=
  let w1 := copyHeaders (resp_Header resp) w in
  let w2 := w_Header_Set "X-Cache" "MISS" w1 in
  let w3 := WriteHeader (resp_StatusCode resp) w2 in
  Write body w3.

(** forwardRequest forwards a request to the upstream server. *)
Definition forwardRequest (env : Env) (cacheKey : string) (isCacheable : bool)
    (s : World) : World :=
  match roundtrip env with
  | PrepareFailed =>
      {| w := Error "Internal server error" StatusInternalServerError (w s);
         c := c s; calls := calls s |}
  | DoFailed =>
      {| w := Error "Failed to reach upstream server" StatusBadGateway (w s);
         c := c s; calls := S (calls s) |}
  | ReadFailed _ =>
      {| w := Error "Failed to read upstream response" StatusInternalServerError (w s);
         c := c s; calls := S (calls s) |}
  | Responded resp respBody =>
      let c' := if isCacheable && bool_decide (resp_StatusCode resp = StatusOK)
                then cacheResponse env cacheKey resp respBody (c s)
                else c s in
      {| w := writeResponse resp respBody (w s); c := c'; calls := S (calls s) |}
  end.

(** HandleRequest processes an incoming request, checking the cache first
    and forwarding to the upstream if necessary. *)
Definition HandleRequest (p : HTTPCacheProxy) (env : Env) (r : Request)
    (s : World) : World :=
  let isCacheable := bool_decide (Method r = MethodGet) in
  let cacheKey := generateCacheKey p r in
  let '(served, s') :=
    if isCacheable then tryServeCachedResponse env cacheKey s else (false, s) in
  if served then s' else forwardRequest env cacheKey isCacheable s'.

End Handler.

End proxy.

(** ** Instances of the library parameters

Concrete functions to run the handler on: the plain decimal literals of
[strconv.ParseFloat] and a line-oriented codec for [Response]. *)

Module instances.
Import Go proxy.

Definition digit_of (ch : ascii) : option Z :=
  let n := N_of_ascii ch in
  if ((48 <=? n) && (n <=? 57))%N then Some (Z.of_N n - 48) else None.

(** Reads the longest run of digits at the head of [s]: the number read on
    top of [acc], how many digits were read, and the rest of [s]. *)
Fixpoint readDigits (acc : Z) (n : Z) (s : string) : Z * Z * string :=
  match s with
  | String ch s' =>
      match digit_of ch with
      | Some d => readDigits (acc * 10 + d) (n + 1) s'
      | None => (acc, n, s)
      end
  | EmptyString => (acc, n, s)
  end.

Definition readSign (s : string) : bool * string :=
  match s with
  | String "+" s' => (false, s')
  | String "-" s' => (true, s')
  | _ => (false, s)
  end.

(** The float nearest to [n / d] ([n >= 0], [d > 0]), ties to even. *)
Definition roundRatio (neg : bool) (n d : Z) : float64 :=
  if n =? 0 then S754_zero neg else
  let '(q, e, l) := SFdiv_core_binary prec emax n 0 d 0 in
  binary_round_aux prec emax neg q e l.

(** [sign digits [. digits] [(e|E) sign digits]], correctly rounded; a
    value too large for a float64 is a range error.  On these literals the
    function agrees with [strconv.ParseFloat(s, 64)]; the other spellings
    Go accepts (hexadecimal mantissa, inf, nan) are rejected here. *)
Definition parseDecimal (s : string) : option float64 :=
  let '(neg, s1) := readSign s in
  let '(ip, ni, s2) := readDigits 0 0 s1 in
  let '(m, nf, s3) :=
    match s2 with
    | String "." t => readDigits ip 0 t
    | _ => (ip, 0, s2)
    end in
  if ni + nf =? 0 then None else
  let e10 :=
    match s3 with
    | EmptyString => Some 0
    | String ch t =>
        if bool_decide (ch = "e"%char) || bool_decide (ch = "E"%char) then
          let '(eneg, t1) := readSign t in
          let '(ev, ne, t2) := readDigits 0 0 t1 in
          if (ne =? 0) || negb (bool_decide (t2 = "")) then None
          else Some (cond_Zopp eneg ev)
        else None
    end in
  match e10 with
  | None => None
  | Some x =>
      let e := x - nf in
      let f := if 0 <=? e then roundRatio neg (m * 10 ^ e) 1
               else roundRatio neg m (10 ^ (- e)) in
      match f with
      | S754_infinity _ => None
      | _ => Some f
      end
  end.

(** A codec for [Response]: the status code in decimal on a line of its
    own, one line "name: value" per header value, an empty line, the body. *)
Definition LF : string := String "010"%char "".

Definition headerLines (h : Header) : string :=
  foldr (fun nv acc =>
           foldr (fun v acc => nv.1 +:+ ": " +:+ v +:+ LF +:+ acc) acc nv.2)
        "" (map_to_list h).

Definition lineMarshal (r : Response) : option (list byte) :=
  Some (String.list_byte_of_string
          (FormatInt (StatusCode r) +:+ LF +:+ headerLines (Headers r) +:+ LF)
        ++ Body r).

(** Splits [s] at its first line feed. *)
Fixpoint cutLine (s : string) : option (string * string) :=
  match s with
  | EmptyString => None
  | String ch s' =>
      if bool_decide (ch = "010"%char) then Some ("", s')
      else match cutLine s' with
           | Some (l, rest) => Some (String ch l, rest)
           | None => None
           end
  end.

(** Splits a header line at its first ": ". *)
Fixpoint cutField (s : string) : option (string * string) :=
  match s with
  | String ":" (String " " v) => Some ("", v)
  | String ch s' =>
      match cutField s' with
      | Some (n, v) => Some (String ch n, v)
      | None => None
      end
  | EmptyString => None
  end.

Fixpoint readHeaders (fuel : nat) (h : Header) (s : string) : option (Header * string) :=
  match fuel with
  | O => None
  | S fuel' =>
      match cutLine s with
      | None => None
      | Some ("", rest) => Some (h, rest)
      | Some (l, rest) =>
          match cutField l with
          | Some (n, v) => readHeaders fuel' (Values_Add h n v) rest
          | None => None
          end
      end
  end.

Definition lineUnmarshal (data : list byte) : option Response :=
  let s := String.string_of_list_byte data in
  match cutLine s with
  | None => None
  | Some (st, rest) =>
      match readDigits 0 0 st with
      | (code, n, EmptyString) =>
          if n =? 0 then None else
          match readHeaders (S (String.length rest)) ∅ rest with
          | Some (h, body) =>
              Some {| Headers := h; StatusCode := code;
                      Body := String.list_byte_of_string body |}
          | None => None
          end
      | _ => None
      end
  end.

End instances.


(** ** Vocabulary of the properties *)

Module spec.
Import Go cache proxy.

(** An item is live at [now] unless [now] is strictly after its expiration:
    the test made by [Get] and by [cleanup]. *)
Definition live (now : Z) (item : Item) : Prop := ¬ (now > Expiration item).

(** The world a request starts in: a writer nothing was written to, the
    shared cache, no upstream call yet. *)
Definition fresh (c : Cache) : World :=
  {| w := newResponseWriter; c := c; calls := 0 |}.

(** A lookup of [key] at time [now] hits: a live item is stored under
    [key] and it deserializes. *)
Definition cacheHit (Unmarshal : list byte -> option Response)
    (now : Z) (key : string) (c : Cache) : Prop :=
  ∃ item cachedResp,
    items c !! key = Some item ∧ live now item
    ∧ Unmarshal (Value item) = Some cachedResp.


Fixpoint lowercase (s : string) : string :=
  match s with
  | EmptyString => EmptyString
  | String ch s' => String (to_lower ch) (lowercase s')
  end.

(** [name] is one of Date, Connection, Transfer-Encoding, Keep-Alive up to
    the case of its letters. *)
Definition denied (name : string) : Prop :=
  lowercase name ∈ ["date"; "connection"; "transfer-encoding"; "keep-alive"].

(** The values of [name] among the pairs of a query, in their order. *)
Definition valuesOf (name : string) (pairs : list (string * string)) : list string :=
  (filter (λ kv, kv.1 = name) pairs).*2.

(** Two parameter maps with the same names and, under each name, the same
    values up to their order. *)
Definition samePairs (q1 q2 : Values) : Prop :=
  ∀ name, option_Forall2 (≡ₚ) (q1 !! name) (q2 !! name).

(** What the normalized query string is made of: under each name in
    ascending order, one pair per value, the values in ascending order. *)
Definition sortedPairs (q : Values) : list (string * string) :=
  name ← sort_Strings (map_to_list q).*1;
  (λ v, (name, v)) <$> sort_Strings (q !!! name).

Definition pairString (kv : string * string) : string := kv.1 +:+ "=" +:+ kv.2.

(** The three parameters subject to bucketing. *)
Definition timeParams : list string := ["time"; "start"; "end"].

(** The writes of normalizeQueryString on a list of pairs: an ampersand
    before every pair except the first one of a fresh builder. *)
Fixpoint emit (first : bool) (l : list (string * string)) (b : string) : string :=
  match l with
  | [] => b
  | kv :: l' => emit false l' ((if first then b else b +:+ "&") +:+ kv.1 +:+ "=" +:+ kv.2)
  end.

Definition tailJoin (l : list (string * string)) : string :=
  foldr (λ kv acc, "&" +:+ pairString kv +:+ acc) "" l.

(** Pairs in ascending order of name and, under one name, of value. *)
Definition pairLe (a b : string * string) : Prop :=
  (String.le a.1 b.1 ∧ a.1 ≠ b.1) ∨ (a.1 = b.1 ∧ String.le a.2 b.2).

(** The value roundTimeParameter computes from the parsed parameter. *)
Definition rounded (ttlSeconds : Z) (roundUp : bool) (paramTime : float64) : Z :=
  if roundUp
  then mul64 (quot64 (sub64 (add64 (int64_of_float64 paramTime) ttlSeconds) 1)
                     ttlSeconds) ttlSeconds
  else mul64 (quot64 (int64_of_float64 paramTime) ttlSeconds) ttlSeconds.

(** The bucket of parameter [name] of request [r], when bucketing rewrites
    it: the whole-second TTL is positive, [name] is one of the three time
    parameters, its first value is not empty and parses. *)
Definition bucketed (ParseFloat : string -> option float64)
    (p : HTTPCacheProxy) (r : Request) (name : string) : option Z :=
  if decide (ttlSeconds p > 0 ∧ name ∈ timeParams
             ∧ Values_Get (URL_Query r) name ≠ "")
  then rounded (ttlSeconds p) (bool_decide (name = "end"))
         <$> ParseFloat (Values_Get (URL_Query r) name)
  else None.

(** What tryServeCachedResponse writes on a hit: the stored headers, the
    marker, the stored status and body. *)
Definition hitResponse (cachedResp : Response) (w : ResponseWriter) : ResponseWriter :=
  Write (Body cachedResp)
    (WriteHeader (StatusCode cachedResp)
       (w_Header_Set "X-Cache" "HIT" (copyHeaders (Headers cachedResp) w))).

(** Keys written by a GET request. *)
Definition isGetKey (key : string) : Prop := String.prefix "GET:" key = true.

(** The byte [ch] does not occur in [s]. *)
Fixpoint free (ch : ascii) (s : string) : Prop :=
  match s with
  | EmptyString => True
  | String a s' => a ≠ ch ∧ free ch s'
  end.

(** A request none of whose parts holds a separator of the key: no colon in
    the method and the path, no ampersand and no equals sign in a parameter
    name, no ampersand in a parameter value. *)
Definition plainRequest (r : Request) : Prop :=
  free ":" (Method r) ∧ free ":" (URL_Path r)
  ∧ ∀ kv, kv ∈ URL_pairs r → free "&" kv.1 ∧ free "=" kv.1 ∧ free "&" kv.2.

End spec.

(** ** Package server: the handlers registered beside the proxy *)

Module server.
Import Go.

Section Handlers.

(** [json.NewEncoder(w).Encode] on the map with the two entries "num_keys"
    and "keys": the bytes it writes. *)
Variable EncodeReport : nat -> list string -> list byte.

(** The handler of "/health". *)
Definition healthHandler (w : ResponseWriter) : ResponseWriter :=
  Write (String.list_byte_of_string "OK") (WriteHeader StatusOK w).

(** The handler of "/debug/cache"; it reads the cache and does not write
    to it. *)
Definition debugCacheHandler (method : string) (c : cache.Cache)
    (w : ResponseWriter) : ResponseWriter :=
  if bool_decide (method = "GET") then
    let keys := cache.Keys c in
    let w := w_Header_Set "Content-Type" "application/json" w in
    Write (EncodeReport (length keys) keys) w
  else w.

End Handlers.

End server.

(** ** Runs of the proxy *)

Module runs.
Import Go cache proxy spec.

Section Runs.

Variable ParseFloat : string -> option float64.
Variable Marshal    : Response -> option (list byte).
Variable Unmarshal  : list byte -> option Response.

(** main creates the cache with the configured lifetime; server.New builds
    the proxy over it, and the proxy takes its TTL from the cache. *)
Variable upstream : string.
Variable lifetime : Z.

Definition theProxy : HTTPCacheProxy := proxy.New upstream (cache.New lifetime).

(** The caches a running proxy can hold: the new cache, then any number of
    requests, each handled with a writer of its own, and sweeps. *)
Inductive reachable : Cache -> Prop :=
| reach_New : reachable (cache.New lifetime)
| reach_request (env : Env) (r : Request) (cch : Cache) :
    reachable cch ->
    reachable (c (HandleRequest ParseFloat Marshal Unmarshal theProxy env r (fresh cch)))
| reach_sweep (now : Z) (cch : Cache) :
    reachable cch -> reachable (cleanup now cch).

End Runs.

End runs.

(** ** Sample data *)

Module fixtures.
Import Go cache proxy instances spec.

Definition fiveMinutes : Z := 300 * Second.

Definition store : Cache := cache.New fiveMinutes.

Definition prom : HTTPCacheProxy := proxy.New "http://localhost:9090" store.

Definition get (path : string) (pairs : list (string * string)) : Request :=
  {| Method := "GET"; URL_Path := path; URL_pairs := pairs |}.

Definition queryUp : Request := get "/api/v1/query" [("query", "up")].


Definition bytes (s : string) : list byte := String.list_byte_of_string s.

Definition upstreamHeader : Header :=
  {[ "Content-Type" := ["application/json"];
     "Date" := ["Sat, 31 Oct 2026 08:00:00 GMT"];
     "Connection" := ["keep-alive"];
     "Keep-Alive" := ["timeout=5"];
     "Transfer-Encoding" := ["chunked"];
     "Vary" := ["Origin"; "Accept-Encoding"] ]}.

Definition ok200 : Upstream :=
  Responded {| resp_StatusCode := 200; resp_Header := upstreamHeader |}
            (bytes "{}").

Definition unavailable503 : Upstream :=
  Responded {| resp_StatusCode := 503; resp_Header := upstreamHeader |}
            (bytes "busy").


Definition at_ (t : Z) (up : Upstream) : Env :=
  {| t_lookup := t; t_store := t + 1; roundtrip := up |}.

Definition handle : HTTPCacheProxy → Env → Request → World → World :=
  HandleRequest parseDecimal lineMarshal lineUnmarshal.

Definition keyOf : HTTPCacheProxy → Request → string :=
  generateCacheKey parseDecimal.


(** A cache holding an item under an unrelated key. *)
Definition warmed : Cache :=
  Set_ 0 "GET:/api/v1/labels:" (bytes "200") store.

(** One range query written in two orders. *)
Definition rangeA : Request :=
  get "/api/v1/query_range"
      [("query", "up"); ("start", "1000"); ("end", "1000"); ("match[]", "a"); ("match[]", "b")].

Definition rangeB : Request :=
  get "/api/v1/query_range"
      [("match[]", "b"); ("end", "1000"); ("query", "up"); ("match[]", "a"); ("start", "1000")].

(** A repeated start parameter, in its two orders. *)
Definition twoStartsA : Request :=
  get "/api/v1/query_range" [("start", "1000"); ("start", "2000")].

Definition twoStartsB : Request :=
  get "/api/v1/query_range" [("start", "2000"); ("start", "1000")].

(** The bucketing examples: ttl = 300s. *)
Definition buckets : Request :=
  get "/api/v1/query_range" [("start", "1000"); ("end", "1000"); ("time", "950")].

Definition fractionalEnd : Request :=
  get "/api/v1/query_range" [("end", "900.5")].

Definition negativeStart : Request :=
  get "/api/v1/query_range" [("start", "-100")].

Definition fractionalStart : Request :=
  get "/api/v1/query_range" [("start", "1000.3")].

(** A proxy whose TTL is half a second. *)
Definition halfSecond : HTTPCacheProxy :=
  proxy.New "http://localhost:9090" (cache.New 500000000).

(** Two requests with different parameters: one parameter [a] whose value
    holds an ampersand (sent as a=1%26b%3D2), and two parameters [a], [b]. *)
Definition oneParam : Request := get "/api/v1/query" [("a", "1&b=2")].

Definition twoParams : Request := get "/api/v1/query" [("a", "1"); ("b", "2")].

(** Two requests with different paths, the first path holding a colon. *)
Definition colonPath : Request := get "/api/v1/query:a=1" [("b", "2")].

Definition plainPath : Request := get "/api/v1/query" [("a", "1:b=2")].

(** The cache after a first GET of [queryUp] at time 0 answered 200. *)
Definition populated : Cache :=
  c (handle prom (at_ 0 ok200) queryUp (fresh store)).

(** An upstream whose response body cannot be read. *)
Definition truncated : Upstream :=
  ReadFailed {| resp_StatusCode := 200; resp_Header := upstreamHeader |}.

Fixpoint freeb (ch : ascii) (s : string) : bool :=
  match s with
  | EmptyString => true
  | String a s' => negb (bool_decide (a = ch)) && freeb ch s'
  end.

Definition plainRequestb (r : Request) : bool :=
  freeb ":" (Method r) && freeb ":" (URL_Path r)
  && forallb (fun kv => freeb "&" kv.1 && freeb "=" kv.1 && freeb "&" kv.2)
             (URL_pairs r).


End fixtures.

(** * Properties *)

(** ** The TTL store *)

Section CacheFacts.
Import cache spec.

Implicit Types (c : Cache) (key : string) (now : Z).

Lemma Get_state now key c : (Get now key c).2 = c.
Proof.
  unfold Get. destruct (items c !! key) as [item|]; [|done].
  by case_bool_decide.
Qed.

Lemma Get_absent now key c :
  items c !! key = None → (Get now key c).1 = ([], false).
Proof. intros Hk. unfold Get. by rewrite Hk. Qed.

Lemma Get_expired now key c item :
  items c !! key = Some item → now > Expiration item →
  (Get now key c).1 = ([], false).
Proof.
  intros Hk Hexp. unfold Get. rewrite Hk.
  by rewrite bool_decide_eq_true_2.
Qed.

Lemma Get_live now key c item :
  items c !! key = Some item → live now item →
  (Get now key c).1 = (Value item, true).
Proof.
  intros Hk Hlive. unfold Get. rewrite Hk.
  by rewrite bool_decide_eq_false_2.
Qed.

Lemma Get_found_inv now key c v :
  (Get now key c).1 = (v, true) →
  ∃ item, items c !! key = Some item ∧ live now item ∧ v = Value item.
Proof.
  unfold Get. destruct (items c !! key) as [item|] eqn:Hk; [|done].
  case_bool_decide as Hexp; [done|].
  intros [= <-]. by exists item.
Qed.

Lemma cleanup_lookup_live now key c item :
  items c !! key = Some item → live now item →
  items (cleanup now c) !! key = Some item.
Proof.
  intros Hk Hlive. unfold cleanup; simpl.
  apply map_lookup_filter_Some. done.
Qed.

Lemma cleanup_lookup_expired now key c item :
  items c !! key = Some item → now > Expiration item →
  items (cleanup now c) !! key = None.
Proof.
  intros Hk Hexp. unfold cleanup; simpl.
  apply map_lookup_filter_None. right. intros x Hx.
  rewrite Hk in Hx. injection Hx as <-. simpl. tauto.
Qed.

End CacheFacts.

Section CacheClaims.
Import cache spec.

(** C3.  For every key, [Get] returns the stored value together with
    found = true exactly when a non-expired item is stored under the key; it
    reports not-found both when the key is absent and when its item is
    present but expired; and the cache after a [Get] is the cache before
    it: no item is removed or modified by a read. *)
Theorem C3_Get_found_iff_live_and_pure (now : Z) (key : string) (c : Cache) :
  (∀ v, (Get now key c).1 = (v, true) ↔
        ∃ item, items c !! key = Some item ∧ live now item ∧ v = Value item)
  ∧ (items c !! key = None → (Get now key c).1 = ([], false))
  ∧ (∀ item, items c !! key = Some item → now > Expiration item →
             (Get now key c).1 = ([], false))
  ∧ (Get now key c).2 = c.
Proof.
  split; [|split; [|split]].
  - intros v. split.
    + apply Get_found_inv.
    + intros (item & Hk & Hlive & ->). by apply Get_live.
  - apply Get_absent.
  - intros item. apply Get_expired.
  - apply Get_state.
Qed.

(** C10.  An item whose expiration timestamp equals the current time is
    still live: [Get] returns its value with found = true and a sweep at
    that instant keeps it.  Both tests are strict: at any time [t], [Get]
    reports the item not-found exactly when [t > Expiration], and a sweep at
    [t] removes it exactly when [t > Expiration]. *)
Theorem C10_live_at_expiration_instant (now : Z) (key : string) (c : Cache) (item : Item) :
  items c !! key = Some item →
  (Expiration item = now →
     (Get now key c).1 = (Value item, true)
     ∧ items (cleanup now c) !! key = Some item)
  ∧ (∀ t, (Get t key c).1 = ([], false) ↔ t > Expiration item)
  ∧ (∀ t, items (cleanup t c) !! key = None ↔ t > Expiration item).
Proof.
  intros Hk. split; [|split].
  - intros Hnow.
    assert (live now item) as Hlive by (unfold live; lia).
    split; [by apply Get_live | by apply cleanup_lookup_live].
  - intros t. split.
    + intros Hget. destruct (decide (t > Expiration item)) as [|Hle]; [done|].
      rewrite (Get_live t key c item Hk Hle) in Hget. discriminate.
    + by apply Get_expired.
  - intros t. split.
    + intros Hnone. destruct (decide (t > Expiration item)) as [|Hle]; [done|].
      rewrite (cleanup_lookup_live t key c item Hk Hle) in Hnone. discriminate.
    + by apply cleanup_lookup_expired.
Qed.

(** An item stored at time 0 with a lifetime of 100ns, read and swept at
    time 100. *)
Lemma C10_witness :
  let c := Set_ 0 "k" ["v"%byte] (New 100) in
  let item := {| Value := ["v"%byte]; Expiration := 100 |} in
  items c !! "k" = Some item
  ∧ (Get 100 "k" c).1 = (["v"%byte], true)
  ∧ items (cleanup 100 c) !! "k" = Some item.
Proof.
  assert (items (Set_ 0 "k" ["v"%byte] (New 100)) !! "k"
          = Some {| Value := ["v"%byte]; Expiration := 100 |}) as Hk
    by reflexivity.
  split; [exact Hk|].
  exact (proj1 (C10_live_at_expiration_instant 100 "k" _ _ Hk) eq_refl).
Defined.

End CacheClaims.

(** ** Header maps *)

Section HeaderFacts.
Import Go proxy spec.

Implicit Types (h : Header) (w : ResponseWriter) (k name : string).

Lemma EqualFold_lowercase s t : EqualFold s t = true ↔ lowercase s = lowercase t.
Proof.
  revert t. induction s as [|a s IH]; intros [|b t]; simpl; try done.
  rewrite andb_true_iff, bool_decide_eq_true, IH. split.
  - by intros [-> ->].
  - by intros [= -> ->].
Qed.

Lemma shouldSkip_denied name : shouldSkip name = true ↔ denied name.
Proof.
  unfold shouldSkip, denied, skipCacheHeaders.
  cbn [existsb]. rewrite !orb_true_iff, !EqualFold_lowercase.
  change (lowercase "Date") with "date".
  change (lowercase "Connection") with "connection".
  change (lowercase "Transfer-Encoding") with "transfer-encoding".
  change (lowercase "Keep-Alive") with "keep-alive".
  rewrite !elem_of_cons, elem_of_nil. intuition discriminate.
Qed.

Lemma cachedHeaders_lookup h name :
  cachedHeaders h !! name = if shouldSkip name then None else h !! name.
Proof.
  unfold cachedHeaders.
  apply (map_fold_weak_ind (λ acc m,
    acc !! name = if shouldSkip name then None else m !! name)).
  { rewrite lookup_empty. by destruct (shouldSkip name). }
  intros i x m acc Hi IH.
  destruct (decide (i = name)) as [->|Hne].
  - destruct (shouldSkip name); simpl; [done|]. by rewrite !lookup_insert_eq.
  - rewrite (lookup_insert_ne m) by done.
    destruct (shouldSkip i); simpl; [done|]. by rewrite lookup_insert_ne.
Qed.

Lemma Header_Values_insert_eq h k values :
  Header_Values (<[k := values]> h) k = values.
Proof. unfold Header_Values. by rewrite lookup_insert_eq. Qed.




Lemma add_values_rest name values w :
  wStatus (foldl (λ w value, w_Header_Add name value w) w values) = wStatus w
  ∧ wBody (foldl (λ w value, w_Header_Add name value w) w values) = wBody w.
Proof. revert w. induction values as [|v values IH]; intros w; simpl; [done|]. by rewrite !(proj1 (IH _)), !(proj2 (IH _)). Qed.

Lemma copyHeaders_rest h w :
  wStatus (copyHeaders h w) = wStatus w ∧ wBody (copyHeaders h w) = wBody w.
Proof.
  unfold copyHeaders.
  apply (map_fold_weak_ind (λ r (m : Header), wStatus r = wStatus w ∧ wBody r = wBody w)); [done|].
  intros i x m r _ [IH1 IH2].
  destruct (add_values_rest i x r) as [-> ->]. done.
Qed.


End HeaderFacts.

(** ** The cache-aside handler *)

Section HandlerFacts.
Import Go cache proxy spec.

Variable ParseFloat : string -> option float64.
Variable Marshal    : Response -> option (list byte).
Variable Unmarshal  : list byte -> option Response.

Implicit Types (p : HTTPCacheProxy) (env : Env) (r : Request) (s : World)
  (key : string) (c : Cache).

Local Abbreviation tryServe := (tryServeCachedResponse Unmarshal).
Local Abbreviation forward := (forwardRequest Marshal).
Local Abbreviation Handle := (HandleRequest ParseFloat Marshal Unmarshal).
Local Abbreviation keyOf := (generateCacheKey ParseFloat).

Lemma World_eta s : {| w := w s; c := c s; calls := calls s |} = s.
Proof. by destruct s. Qed.

Lemma tryServe_hit env key s :
  (tryServe env key s).1 = true ↔ cacheHit Unmarshal (t_lookup env) key (c s).
Proof.
  unfold tryServeCachedResponse, cacheHit, Get.
  destruct (items (c s) !! key) as [item|] eqn:Hk; simpl.
  - case_bool_decide as Hexp; simpl.
    + split; [done|]. intros (i & ? & [= <-] & Hlive & _). by destruct Hlive.
    + destruct (Unmarshal (Value item)) as [cachedResp|] eqn:Hu; simpl.
      * split; [|done]. intros _. by exists item, cachedResp.
      * split; [done|]. intros (i & ? & [= <-] & _ & Hu'). congruence.
  - split; [done|]. by intros (i & ? & [=] & _).
Qed.

Lemma tryServe_miss env key s :
  (tryServe env key s).1 = false → (tryServe env key s).2 = s.
Proof.
  unfold tryServeCachedResponse, Get.
  destruct (items (c s) !! key) as [item|]; simpl.
  - case_bool_decide; simpl; [by rewrite World_eta|].
    destruct (Unmarshal (Value item)); simpl; [done|by rewrite World_eta].
  - by rewrite World_eta.
Qed.

Lemma tryServe_cache env key s :
  c (tryServe env key s).2 = c s ∧ calls (tryServe env key s).2 = calls s.
Proof.
  unfold tryServeCachedResponse, Get.
  destruct (items (c s) !! key) as [item|]; simpl; [|done].
  case_bool_decide; simpl; [done|].
  by destruct (Unmarshal (Value item)).
Qed.

Lemma cacheHit_cases now key c :
  cacheHit Unmarshal now key c ∨ ¬ cacheHit Unmarshal now key c.
Proof.
  unfold cacheHit.
  destruct (items c !! key) as [item|] eqn:Hk;
    [|right; by intros (i & x & [=] & _)].
  destruct (decide (live now item)) as [Hlive|Hdead];
    [|right; intros (i & x & [= <-] & Hl & _); by destruct Hdead].
  destruct (Unmarshal (Value item)) as [x|] eqn:Hu;
    [left; by exists item, x|].
  right. intros (i & x & [= <-] & _ & Hx). congruence.
Qed.

Lemma served_cases now key r c :
  (Method r = MethodGet ∧ cacheHit Unmarshal now key c)
  ∨ ¬ (Method r = MethodGet ∧ cacheHit Unmarshal now key c).
Proof.
  destruct (decide (Method r = MethodGet)) as [Hget|Hother];
    [|right; by intros [? _]].
  destruct (cacheHit_cases now key c) as [Hhit|Hnohit];
    [by left|right; by intros [_ ?]].
Qed.

(** A request that is not answered from the cache is forwarded in the
    world it arrived in. *)
Lemma Handle_forwarded p env r s :
  ¬ (Method r = MethodGet ∧ cacheHit Unmarshal (t_lookup env) (keyOf p r) (c s)) →
  Handle p env r s
  = forward env (keyOf p r) (bool_decide (Method r = MethodGet)) s.
Proof.
  intros Hmiss. unfold HandleRequest.
  case_bool_decide as Hget; [|done].
  destruct (tryServe env (keyOf p r) s) as [served s'] eqn:Htry.
  destruct served.
  - destruct Hmiss. split; [done|]. apply tryServe_hit. by rewrite Htry.
  - pose proof (tryServe_miss env (keyOf p r) s) as Hs.
    rewrite Htry in Hs. simpl in Hs. by rewrite Hs.
Qed.

(** A cacheable request that hits is answered by [tryServeCachedResponse]
    alone. *)
Lemma Handle_served p env r s :
  Method r = MethodGet →
  cacheHit Unmarshal (t_lookup env) (keyOf p r) (c s) →
  Handle p env r s = (tryServe env (keyOf p r) s).2.
Proof.
  intros Hget Hhit. unfold HandleRequest.
  rewrite bool_decide_eq_true_2 by done.
  apply tryServe_hit in Hhit.
  destruct (tryServe env (keyOf p r) s) as [served s'].
  simpl in Hhit. by subst served.
Qed.

Lemma WriteHeader_fields code w :
  wHeader (WriteHeader code w) = wHeader w
  ∧ wStatus (WriteHeader code w) = Some (default code (wStatus w))
  ∧ wBody (WriteHeader code w) = wBody w.
Proof. unfold WriteHeader. destruct (wStatus w) eqn:Hw; simpl; by rewrite ?Hw. Qed.

Lemma Write_fields b w :
  wHeader (Write b w) = wHeader w
  ∧ wStatus (Write b w) = Some (default StatusOK (wStatus w))
  ∧ wBody (Write b w) = wBody w ++ b.
Proof.
  unfold Write; simpl.
  destruct (WriteHeader_fields StatusOK w) as (-> & -> & ->). done.
Qed.

Lemma Error_status msg code w :
  wStatus w = None → wStatus (Error msg code w) = Some code.
Proof.
  intros Hw. unfold Error.
  rewrite (proj1 (proj2 (Write_fields _ _))).
  rewrite (proj1 (proj2 (WriteHeader_fields _ _))). simpl. by rewrite Hw.
Qed.



Lemma writeResponse_header resp body w :
  wHeader (writeResponse resp body w)
  = <["X-Cache" := ["MISS"]]> (wHeader (copyHeaders (resp_Header resp) w)).
Proof.
  unfold writeResponse.
  rewrite (proj1 (Write_fields _ _)), (proj1 (WriteHeader_fields _ _)).
  done.
Qed.

Lemma writeResponse_X_Cache resp body w :
  wHeader (writeResponse resp body w) !! "X-Cache" = Some ["MISS"].
Proof. rewrite writeResponse_header. apply lookup_insert_eq. Qed.


End HandlerFacts.

Section HandlerClaims.
Import Go cache proxy spec.

Variable ParseFloat : string -> option float64.
Variable Marshal    : Response -> option (list byte).
Variable Unmarshal  : list byte -> option Response.

Implicit Types (p : HTTPCacheProxy) (env : Env) (r : Request) (cch : Cache).

Local Abbreviation forward := (forwardRequest Marshal).
Local Abbreviation Handle := (HandleRequest ParseFloat Marshal Unmarshal).
Local Abbreviation keyOf := (generateCacheKey ParseFloat).
Local Abbreviation hit := (cacheHit Unmarshal).

(** What [cacheResponse] leaves in the cache: the old cache when the
    response cannot be serialized, else the old cache with the serialized
    response under the key. *)
Lemma cacheResponse_items env key resp body cch k :
  items (cacheResponse Marshal env key resp body cch) !! k
  = match Marshal {| Headers := cachedHeaders (resp_Header resp);
                     StatusCode := resp_StatusCode resp; Body := body |} with
    | Some data =>
        if decide (k = key)
        then Some {| Value := data; Expiration := t_store env + ttl cch |}
        else items cch !! k
    | None => items cch !! k
    end.
Proof.
  unfold cacheResponse. destruct (Marshal _) as [data|]; [|done].
  unfold Set_; simpl. case_decide as Hk.
  - subst k. by rewrite lookup_insert_eq.
  - by rewrite lookup_insert_ne.
Qed.

(** C7.  When the upstream call fails with a transport error the cache
    after the request is the cache before it, whatever the request; and a
    request that reached the upstream (it was not answered from the cache)
    is answered with status 502 Bad Gateway after exactly one upstream
    call. *)
Theorem C7_transport_failure_leaves_cache p env r cch :
  roundtrip env = DoFailed →
  c (Handle p env r (fresh cch)) = cch
  ∧ (¬ (Method r = MethodGet ∧ hit (t_lookup env) (keyOf p r) cch) →
     wStatus (w (Handle p env r (fresh cch))) = Some StatusBadGateway
     ∧ calls (Handle p env r (fresh cch)) = 1%nat).
Proof.
  intros Hfail.
  destruct (served_cases Unmarshal (t_lookup env) (keyOf p r) r cch)
    as [[Hget Hhit]|Hmiss].
  - split; [|tauto].
    rewrite Handle_served by done. apply tryServe_cache.
  - rewrite Handle_forwarded by done.
    unfold forwardRequest. rewrite Hfail. cbn [w c calls fresh].
    split; [done|]. intros _. split; [|done].
    by apply Error_status.
Qed.


End HandlerClaims.

Section StoreClaims.
Import Go cache proxy spec.

Variable ParseFloat : string -> option float64.
Variable Marshal    : Response -> option (list byte).
Variable Unmarshal  : list byte -> option Response.

Implicit Types (p : HTTPCacheProxy) (env : Env) (r : Request) (cch : Cache).

Local Abbreviation Handle := (HandleRequest ParseFloat Marshal Unmarshal).
Local Abbreviation keyOf := (generateCacheKey ParseFloat).
Local Abbreviation hit := (cacheHit Unmarshal).

(** The handler changes the cache only on the path that stores. *)
Lemma Handle_cache_cases p env r cch :
  c (Handle p env r (fresh cch)) = cch
  ∨ (Method r = MethodGet
     ∧ ∃ resp body,
         roundtrip env = Responded resp body
         ∧ resp_StatusCode resp = StatusOK
         ∧ c (Handle p env r (fresh cch))
           = cacheResponse Marshal env (keyOf p r) resp body cch).
Proof.
  destruct (served_cases Unmarshal (t_lookup env) (keyOf p r) r cch)
    as [[Hget Hhit]|Hmiss].
  - left. rewrite Handle_served by done. apply tryServe_cache.
  - rewrite Handle_forwarded by done. unfold forwardRequest.
    destruct (roundtrip env) as [| |resp|resp body]; cbn [w c calls fresh];
      [by left..|].
    case_bool_decide as Hget; cbn [andb]; [|by left].
    case_bool_decide as Hok; [|by left].
    right. split; [done|]. by exists resp, body.
Qed.



End StoreClaims.

Section HandlerRuns.
Import Go cache proxy instances spec fixtures.


(** A GET to a cache that holds another key, the upstream unreachable. *)
Lemma C7_witness :
  roundtrip (at_ 10 DoFailed) = DoFailed
  ∧ c (handle prom (at_ 10 DoFailed) queryUp (fresh warmed)) = warmed
  ∧ wStatus (w (handle prom (at_ 10 DoFailed) queryUp (fresh warmed)))
    = Some StatusBadGateway
  ∧ calls (handle prom (at_ 10 DoFailed) queryUp (fresh warmed)) = 1%nat.
Proof.
  destruct (C7_transport_failure_leaves_cache parseDecimal lineMarshal lineUnmarshal
              prom (at_ 10 DoFailed) queryUp warmed eq_refl) as [Hcache Hbad].
  split; [reflexivity|]. split; [exact Hcache|].
  apply Hbad. intros [_ (item & x & Hitem & _)].
  vm_compute in Hitem. discriminate Hitem.
Defined.






End HandlerRuns.

(** ** Cache keys *)

Section SortFacts.
Import Go proxy spec.

Lemma sort_Strings_Permutation l : sort_Strings l ≡ₚ l.
Proof. apply merge_sort_Permutation. Qed.

Lemma sort_Strings_Sorted l : Sorted String.le (sort_Strings l).
Proof. apply (Sorted_merge_sort String.le). Qed.

(** The result of [sort.Strings] depends on the elements only. *)
Lemma sort_Strings_unique l1 l2 : l1 ≡ₚ l2 → sort_Strings l1 = sort_Strings l2.
Proof.
  intros Hperm. apply (Sorted_unique String.le).
  - apply sort_Strings_Sorted.
  - apply sort_Strings_Sorted.
  - by rewrite !sort_Strings_Permutation.
Qed.

Lemma foldl_pointwise {A B} (f g : A → B → A) (l : list B) (a : A) :
  (∀ a x, f a x = g a x) → foldl f a l = foldl g a l.
Proof.
  intros Hfg. revert a. induction l as [|x l IH]; intros a; simpl; [done|].
  by rewrite Hfg, IH.
Qed.

Lemma samePairs_refl (q : Values) : samePairs q q.
Proof. intros name. destruct (q !! name); by constructor. Qed.

Lemma samePairs_lookup_total (q1 q2 : Values) name :
  samePairs q1 q2 → q1 !!! name ≡ₚ q2 !!! name.
Proof.
  intros Hsame. rewrite !lookup_total_alt.
  destruct (Hsame name) as [a b Hab|]; simpl; done.
Qed.

Lemma samePairs_keys (q1 q2 : Values) :
  samePairs q1 q2 → (map_to_list q1).*1 ≡ₚ (map_to_list q2).*1.
Proof.
  intros Hsame. apply NoDup_Permutation.
  - apply NoDup_fst_map_to_list.
  - apply NoDup_fst_map_to_list.
  - intros k. rewrite !list_elem_of_fmap.
    split; intros ([k' vs] & -> & Hin); apply elem_of_map_to_list in Hin; simpl.
    + specialize (Hsame k'). rewrite Hin in Hsame.
      inversion Hsame as [a b Hab Ha Hb|]; subst.
      exists (k', b). split; [done|]. by apply elem_of_map_to_list.
    + specialize (Hsame k'). rewrite Hin in Hsame.
      inversion Hsame as [a b Hab Ha Hb|]; subst.
      exists (k', a). split; [done|]. by apply elem_of_map_to_list.
Qed.

Lemma samePairs_size (q1 q2 : Values) : samePairs q1 q2 → size q1 = size q2.
Proof.
  intros Hsame. rewrite <-!length_map_to_list.
  rewrite <-(length_fmap fst (map_to_list q1)), <-(length_fmap fst (map_to_list q2)).
  by rewrite (samePairs_keys q1 q2 Hsame).
Qed.

(** normalizeQueryString sees neither the order of the names nor the order
    of the values under a name. *)
Lemma normalizeQueryString_samePairs (q1 q2 : Values) :
  samePairs q1 q2 → normalizeQueryString q1 = normalizeQueryString q2.
Proof.
  intros Hsame. unfold normalizeQueryString.
  rewrite (samePairs_size q1 q2 Hsame).
  case_bool_decide; [done|].
  rewrite (sort_Strings_unique _ _ (samePairs_keys q1 q2 Hsame)).
  apply foldl_pointwise. intros b ik.
  by rewrite (sort_Strings_unique _ _ (samePairs_lookup_total q1 q2 ik.2 Hsame)).
Qed.

End SortFacts.

Section QueryFacts.
Import Go proxy spec.

Variable ParseFloat : string -> option float64.

Implicit Types (q : Values) (name : string) (pairs : list (string * string)).

Local Abbreviation round := (roundTimeParameter ParseFloat).

Lemma valuesOf_snoc name pairs kv :
  valuesOf name (pairs ++ [kv])
  = valuesOf name pairs ++ (if decide (kv.1 = name) then [kv.2] else []).
Proof.
  unfold valuesOf. rewrite filter_app, fmap_app. f_equal.
  rewrite filter_cons, filter_nil. by case_decide.
Qed.

(** [ParseQuery] groups the pairs by name and keeps their order. *)
Lemma ParseQuery_lookup pairs name :
  ParseQuery pairs !! name
  = match valuesOf name pairs with [] => None | vs => Some vs end.
Proof.
  unfold ParseQuery.
  induction pairs as [|kv pairs IH] using rev_ind; [done|].
  rewrite foldl_snoc, valuesOf_snoc. unfold Values_Add at 1.
  case_decide as Hk.
  - rewrite Hk, lookup_insert_eq, IH.
    by destruct (valuesOf name pairs).
  - rewrite lookup_insert_ne by done. by rewrite IH, app_nil_r.
Qed.

Lemma ParseQuery_nonempty pairs name vs :
  ParseQuery pairs !! name = Some vs → vs ≠ [].
Proof.
  rewrite ParseQuery_lookup.
  destruct (valuesOf name pairs); [done|]. by intros [= <-].
Qed.

Lemma ParseQuery_lookup_total pairs name :
  ParseQuery pairs !!! name = valuesOf name pairs.
Proof.
  rewrite lookup_total_alt, ParseQuery_lookup.
  by destruct (valuesOf name pairs).
Qed.

Lemma ParseQuery_samePairs pairs1 pairs2 :
  pairs1 ≡ₚ pairs2 → samePairs (ParseQuery pairs1) (ParseQuery pairs2).
Proof.
  intros Hperm name. rewrite !ParseQuery_lookup.
  assert (valuesOf name pairs1 ≡ₚ valuesOf name pairs2) as Hvs
    by (unfold valuesOf; by rewrite Hperm).
  destruct (valuesOf name pairs1) as [|v1 vs1], (valuesOf name pairs2) as [|v2 vs2].
  - constructor.
  - by apply Permutation_nil_cons in Hvs.
  - symmetry in Hvs. by apply Permutation_nil_cons in Hvs.
  - by constructor.
Qed.

Lemma copy_id q : (λ v : list string, [] ++ v) <$> q = q.
Proof. apply map_fmap_id. Qed.

(** roundTimeParameter touches the parameter it is given and no other. *)
Lemma round_lookup_ne q name other T up :
  other ≠ name → round q name T up !! other = q !! other.
Proof.
  intros Hne. unfold roundTimeParameter.
  case_bool_decide; [done|].
  destruct (ParseFloat _); [|done].
  unfold Values_Set. by rewrite lookup_insert_ne.
Qed.

Lemma round_Get_ne q name other T up :
  other ≠ name → Values_Get (round q name T up) other = Values_Get q other.
Proof. intros Hne. unfold Values_Get. by rewrite round_lookup_ne. Qed.

Lemma round_samePairs q1 q2 name T up :
  Values_Get q1 name = Values_Get q2 name →
  samePairs q1 q2 → samePairs (round q1 name T up) (round q2 name T up).
Proof.
  intros Hget Hsame. unfold roundTimeParameter. rewrite Hget.
  case_bool_decide; [done|].
  destruct (ParseFloat _); [|done].
  intros k. unfold Values_Set. destruct (decide (k = name)) as [->|Hne].
  - rewrite !lookup_insert_eq. by constructor.
  - rewrite !lookup_insert_ne by done. apply Hsame.
Qed.

Lemma keyQuery_samePairs p r1 r2 :
  URL_pairs r1 ≡ₚ URL_pairs r2 →
  (ttlSeconds p > 0 →
   ∀ name, name ∈ timeParams →
           Values_Get (URL_Query r1) name = Values_Get (URL_Query r2) name) →
  samePairs (keyQuery ParseFloat p r1) (keyQuery ParseFloat p r2).
Proof.
  intros Hperm Hfirst'. unfold keyQuery. rewrite !copy_id.
  assert (samePairs (URL_Query r1) (URL_Query r2)) as Hsame
    by (by apply ParseQuery_samePairs).
  case_bool_decide as Httl; [|done].
  specialize (Hfirst' Httl). rename Hfirst' into Hfirst.
  apply round_samePairs.
  { rewrite !round_Get_ne by done. apply Hfirst. set_solver. }
  apply round_samePairs.
  { rewrite !round_Get_ne by done. apply Hfirst. set_solver. }
  apply round_samePairs; [|done].
  apply Hfirst. set_solver.
Qed.

End QueryFacts.

Section OrderClaims.
Import Go proxy spec.

Variable ParseFloat : string -> option float64.

(** C4.  generateCacheKey is a function of the method, the
    path and the multiset of name-value pairs of the query, provided that,
    when bucketing is active, each of time, start and end has the same first
    value in both queries (bucketing reads the first value of these three
    only): two requests with the same method and path whose queries hold the
    same pairs in any order get the same key. *)
Theorem C4_key_ignores_pair_order (p : HTTPCacheProxy) (r1 r2 : Request) :
  Method r1 = Method r2 →
  URL_Path r1 = URL_Path r2 →
  URL_pairs r1 ≡ₚ URL_pairs r2 →
  (ttlSeconds p > 0 →
   ∀ name, name ∈ timeParams →
           Values_Get (URL_Query r1) name = Values_Get (URL_Query r2) name) →
  generateCacheKey ParseFloat p r1 = generateCacheKey ParseFloat p r2.
Proof.
  intros Hmethod Hpath Hperm Hfirst. unfold generateCacheKey.
  rewrite Hmethod, Hpath. do 4 f_equal.
  apply normalizeQueryString_samePairs. by apply keyQuery_samePairs.
Qed.

End OrderClaims.

Section OrderRuns.
Import Go proxy instances spec fixtures.

(** The same range query with its parameters in two orders. *)
Lemma C4_witness :
  URL_pairs rangeA ≡ₚ URL_pairs rangeB
  ∧ URL_pairs rangeA ≠ URL_pairs rangeB
  ∧ keyOf prom rangeA = keyOf prom rangeB.
Proof.
  assert (URL_pairs rangeA ≡ₚ URL_pairs rangeB) as Hperm.
  { apply (bool_decide_unpack _). vm_compute. exact I. }
  split; [exact Hperm|]. split; [discriminate|].
  apply C4_key_ignores_pair_order; [reflexivity|reflexivity|exact Hperm|].
  intros _ name Hname. unfold timeParams in Hname.
  apply elem_of_cons in Hname as [->|Hname]; [vm_compute; reflexivity|].
  apply elem_of_cons in Hname as [->|Hname]; [vm_compute; reflexivity|].
  apply elem_of_cons in Hname as [->|Hname]; [vm_compute; reflexivity|].
  by apply elem_of_nil in Hname.
Defined.

(** C4 as the specification words it (any two orders of the same pairs)
    fails on a repeated time parameter: the two orders of start=1000,
    start=2000 hold the same pairs and get different keys. *)
Lemma C4_counterexample :
  Method twoStartsA = Method twoStartsB
  ∧ URL_Path twoStartsA = URL_Path twoStartsB
  ∧ URL_pairs twoStartsA ≡ₚ URL_pairs twoStartsB
  ∧ keyOf prom twoStartsA = "GET:/api/v1/query_range:start=900"
  ∧ keyOf prom twoStartsB = "GET:/api/v1/query_range:start=1800".
Proof.
  split; [reflexivity|]. split; [reflexivity|]. split; [apply perm_swap|].
  split; vm_compute; reflexivity.
Qed.

End OrderRuns.

Section NormalizeFacts.
Import Go proxy spec.

Implicit Types (q : Values) (b k : string) (l : list (string * string)).

Lemma string_app_assoc (s1 s2 s3 : string) : (s1 +:+ s2) +:+ s3 = s1 +:+ s2 +:+ s3.
Proof.
  induction s1 as [|a s1 IH]; [done|].
  change (String a ((s1 +:+ s2) +:+ s3) = String a (s1 +:+ s2 +:+ s3)).
  by rewrite IH.
Qed.

Lemma string_app_nil_r (s : string) : s +:+ "" = s.
Proof.
  induction s as [|a s IH]; [done|].
  change (String a (s +:+ "") = String a s). by rewrite IH.
Qed.

Lemma emit_false l b : emit false l b = b +:+ tailJoin l.
Proof.
  revert b. induction l as [|kv l IH]; intros b; simpl.
  - by rewrite string_app_nil_r.
  - rewrite IH. unfold pairString. by rewrite !string_app_assoc.
Qed.

Lemma emit_true l b :
  emit true l b = match l with [] => b | kv :: l' => b +:+ pairString kv +:+ tailJoin l' end.
Proof.
  destruct l as [|kv l]; simpl; [done|].
  rewrite emit_false. unfold pairString. by rewrite !string_app_assoc.
Qed.

Lemma emit_app first l1 l2 b :
  emit first (l1 ++ l2) b
  = emit (first && bool_decide (l1 = [])) l2 (emit first l1 b).
Proof.
  revert first b. induction l1 as [|kv l1 IH]; intros first b; simpl.
  - by rewrite andb_true_r.
  - rewrite IH. simpl. by rewrite andb_false_r.
Qed.

Lemma concat_pairs kv l :
  String.concat "&" (pairString <$> kv :: l) = pairString kv +:+ tailJoin l.
Proof.
  revert kv. induction l as [|kv' l IH]; intros kv.
  - simpl. by rewrite string_app_nil_r.
  - change (String.concat "&" (pairString <$> kv :: kv' :: l))
      with (pairString kv +:+ "&" +:+ String.concat "&" (pairString <$> kv' :: l)).
    rewrite IH. done.
Qed.

Lemma emit_concat l : emit true l "" = String.concat "&" (pairString <$> l).
Proof.
  rewrite emit_true. destruct l as [|kv l]; [done|].
  by rewrite concat_pairs.
Qed.

(** The inner loop writes the pairs of one name. *)
Lemma writeValues_emit_from (n i : nat) k (values : list string) b :
  foldl (λ b jv, (if (0 <? i)%nat || (0 <? jv.1)%nat then b +:+ "&" else b)
                 +:+ k +:+ "=" +:+ jv.2)
        b (imap (λ j v, ((n + j)%nat, v)) values)
  = emit (bool_decide (i = 0%nat) && bool_decide (n = 0%nat))
         ((λ v, (k, v)) <$> values) b.
Proof.
  revert n b. induction values as [|v values IH]; intros n b; [done|].
  rewrite imap_cons. cbn [foldl fmap list_fmap emit fst snd].
  rewrite (imap_ext _ (λ j v, ((S n + j)%nat, v))) by (intros; unfold compose; simpl; f_equal; lia).
  rewrite IH. rewrite (bool_decide_eq_false_2 (S n = 0%nat)) by lia.
  rewrite andb_false_r. f_equal.
  destruct i, n; simpl; done.
Qed.

Lemma writeValues_emit (i : nat) k (values : list string) b :
  writeValues i k values b
  = emit (bool_decide (i = 0%nat)) ((λ v, (k, v)) <$> values) b.
Proof.
  unfold writeValues.
  rewrite <-(andb_true_r (bool_decide (i = 0%nat))).
  exact (writeValues_emit_from 0 i k values b).
Qed.

(** The outer loop, when no name has an empty value list. *)
Lemma writeKeys_emit_from (n : nat) (vals : string → list string)
    (keys : list string) b :
  (∀ k, k ∈ keys → vals k ≠ []) →
  foldl (λ b ik, writeValues ik.1 ik.2 (vals ik.2) b)
        b (imap (λ i k, ((n + i)%nat, k)) keys)
  = emit (bool_decide (n = 0%nat)) (k ← keys; (λ v, (k, v)) <$> vals k) b.
Proof.
  revert n b. induction keys as [|k keys IH]; intros n b Hne; [done|].
  rewrite imap_cons. cbn [foldl fst snd].
  rewrite (imap_ext _ (λ i k, ((S n + i)%nat, k))) by (intros; unfold compose; simpl; f_equal; lia).
  rewrite IH by (intros; apply Hne; set_solver).
  rewrite writeValues_emit, Nat.add_0_r.
  rewrite (bool_decide_eq_false_2 (S n = 0%nat)) by lia.
  change (k ← k :: keys; (λ v, (k, v)) <$> vals k)
    with (((λ v, (k, v)) <$> vals k) ++ (k ← keys; (λ v, (k, v)) <$> vals k)).
  rewrite emit_app.
  rewrite (bool_decide_eq_false_2 (_ <$> vals k = [])), andb_false_r; [done|].
  intros Hnil. apply fmap_nil_inv in Hnil. apply (Hne k); [set_solver|done].
Qed.

(** normalizeQueryString serializes the sorted pairs, joined by "&". *)
Lemma normalizeQueryString_spec q :
  (∀ name vs, q !! name = Some vs → vs ≠ []) →
  normalizeQueryString q = String.concat "&" (pairString <$> sortedPairs q).
Proof.
  intros Hne. unfold normalizeQueryString, sortedPairs.
  case_bool_decide as Hsize.
  - apply map_size_empty_iff in Hsize. subst q.
    by rewrite map_to_list_empty.
  - rewrite <-emit_concat.
    apply (writeKeys_emit_from 0 (λ k, sort_Strings (q !!! k))).
    intros k Hk Hnil.
    rewrite sort_Strings_Permutation in Hk.
    apply list_elem_of_fmap in Hk as ([k' vs] & -> & Hin).
    apply elem_of_map_to_list in Hin. simpl in Hnil.
    rewrite lookup_total_alt, Hin in Hnil. simpl in Hnil.
    apply (Hne k' vs Hin).
    apply Permutation_nil_r. rewrite <-Hnil. by rewrite sort_Strings_Permutation.
Qed.

End NormalizeFacts.

Section SortedPairsFacts.
Import Go proxy spec.

Implicit Types (q : Values) (name k : string) (keys : list string).

Lemma block_filter_eq name (vs : list string) :
  filter (λ kv : string * string, kv.1 = name) ((λ v, (name, v)) <$> vs)
  = (λ v, (name, v)) <$> vs.
Proof.
  induction vs as [|v vs IH]; [done|].
  rewrite fmap_cons, filter_cons_True by done. by rewrite IH.
Qed.

Lemma block_filter_ne name k (vs : list string) :
  k ≠ name →
  filter (λ kv : string * string, kv.1 = name) ((λ v, (k, v)) <$> vs) = [].
Proof.
  intros Hne. induction vs as [|v vs IH]; [done|].
  by rewrite fmap_cons, filter_cons_False.
Qed.

Lemma blocks_filter name (vals : string → list string) keys :
  NoDup keys →
  (filter (λ kv : string * string, kv.1 = name)
          (k ← keys; (λ v, (k, v)) <$> vals k)).*2
  = if decide (name ∈ keys) then vals name else [].
Proof.
  induction keys as [|k keys IH]; intros Hnodup.
  { by rewrite decide_False by set_solver. }
  apply NoDup_cons in Hnodup as [Hk Hnodup].
  change (k ← k :: keys; (λ v, (k, v)) <$> vals k)
    with (((λ v, (k, v)) <$> vals k) ++ (k ← keys; (λ v, (k, v)) <$> vals k)).
  rewrite filter_app, fmap_app, IH by done.
  destruct (decide (k = name)) as [->|Hne].
  - rewrite block_filter_eq.
    rewrite (decide_False (P := name ∈ keys)) by done.
    rewrite (decide_True (P := name ∈ name :: keys)) by set_solver.
    rewrite app_nil_r, <-list_fmap_compose. apply list_fmap_id.
  - rewrite block_filter_ne by done. simpl.
    destruct (decide (name ∈ keys)) as [Hin|Hnin].
    + rewrite (decide_True (P := name ∈ k :: keys)); [done|].
      apply elem_of_cons. by right.
    + rewrite (decide_False (P := name ∈ k :: keys)); [done|].
      rewrite elem_of_cons. by intros [->|?].
Qed.

Lemma sorted_keys_NoDup q : NoDup (sort_Strings (map_to_list q).*1).
Proof. rewrite sort_Strings_Permutation. apply NoDup_fst_map_to_list. Qed.

Lemma sorted_keys_elem q name :
  name ∈ sort_Strings (map_to_list q).*1 ↔ is_Some (q !! name).
Proof.
  rewrite sort_Strings_Permutation, list_elem_of_fmap. split.
  - intros ([k vs] & -> & Hin). apply elem_of_map_to_list in Hin. by exists vs.
  - intros [vs Hvs]. exists (name, vs). split; [done|].
    by apply elem_of_map_to_list.
Qed.

(** Under each name the sorted pairs hold the values of that name, sorted:
    one pair per value. *)
Lemma sortedPairs_filter q name :
  (filter (λ kv : string * string, kv.1 = name) (sortedPairs q)).*2
  = sort_Strings (q !!! name).
Proof.
  unfold sortedPairs.
  rewrite (blocks_filter name (λ k, sort_Strings (q !!! k))) by apply sorted_keys_NoDup.
  case_decide as Hin; [done|].
  rewrite sorted_keys_elem in Hin.
  rewrite lookup_total_alt. destruct (q !! name) as [vs|]; [|done].
  destruct Hin. by exists vs.
Qed.

Lemma blocks_sorted (vals : string → list string) keys :
  StronglySorted String.le keys → NoDup keys →
  (∀ k, StronglySorted String.le (vals k)) →
  StronglySorted pairLe (k ← keys; (λ v, (k, v)) <$> vals k).
Proof.
  intros Hsorted Hnodup Hvals.
  induction keys as [|k keys IH]; [constructor|].
  apply StronglySorted_cons in Hsorted as [Hle Hsorted].
  apply NoDup_cons in Hnodup as [Hk Hnodup].
  change (k ← k :: keys; (λ v, (k, v)) <$> vals k)
    with (((λ v, (k, v)) <$> vals k) ++ (k ← keys; (λ v, (k, v)) <$> vals k)).
  apply StronglySorted_app. split; [|split].
  - intros [k1 v1] [k2 v2] Hin1 Hin2.
    apply list_elem_of_fmap in Hin1 as (v & [= -> ->] & _).
    apply list_elem_of_bind in Hin2 as (k' & Hin2 & Hk').
    apply list_elem_of_fmap in Hin2 as (v' & [= -> ->] & _).
    left. simpl. split.
    + rewrite Forall_forall in Hle. by apply Hle.
    + intros ->. done.
  - apply StronglySorted_fmap with (R1 := String.le); [|apply Hvals].
    intros v1 v2 Hv. right. done.
  - by apply IH.
Qed.

Lemma sortedPairs_sorted q : StronglySorted pairLe (sortedPairs q).
Proof.
  unfold sortedPairs. apply blocks_sorted.
  - apply (StronglySorted_merge_sort String.le).
  - apply sorted_keys_NoDup.
  - intros k. apply (StronglySorted_merge_sort String.le).
Qed.

End SortedPairsFacts.

Section BucketFacts.
Import Go proxy spec.

Variable ParseFloat : string -> option float64.

Implicit Types (q : Values) (name : string) (p : HTTPCacheProxy) (r : Request).

Local Abbreviation round := (roundTimeParameter ParseFloat).

Lemma round_lookup_eq q name T up :
  round q name T up !! name
  = if decide (Values_Get q name = "") then q !! name else
    match ParseFloat (Values_Get q name) with
    | Some f => Some [FormatInt (rounded T up f)]
    | None => q !! name
    end.
Proof.
  unfold roundTimeParameter. case_bool_decide as Hempty.
  - by rewrite decide_True.
  - rewrite decide_False by done.
    destruct (ParseFloat _) as [f|]; [|done].
    unfold Values_Set. rewrite lookup_insert_eq. unfold rounded.
    by destruct up.
Qed.

(** The three roundings, name by name. *)
Lemma keyQuery_lookup p r name :
  keyQuery ParseFloat p r !! name
  = match bucketed ParseFloat p r name with
    | Some z => Some [FormatInt z]
    | None => URL_Query r !! name
    end.
Proof.
  unfold keyQuery, bucketed. rewrite copy_id.
  case_bool_decide as Httl; [|by rewrite decide_False by tauto].
  set (q := URL_Query r).
  destruct (decide (name = "end")) as [->|Hend].
  { rewrite round_lookup_eq, !round_Get_ne, !round_lookup_ne by done.
    destruct (decide (Values_Get q "end" = "")) as [Hempty|Hfull].
    - by rewrite decide_False by tauto.
    - rewrite decide_True by (split; [done|split; [set_solver|done]]).
      by destruct (ParseFloat _). }
  rewrite (round_lookup_ne _ _ "end") by done.
  rewrite (bool_decide_eq_false_2 _ Hend).
  destruct (decide (name = "start")) as [->|Hstart].
  { rewrite round_lookup_eq, !round_Get_ne, !round_lookup_ne by done.
    destruct (decide (Values_Get q "start" = "")) as [Hempty|Hfull].
    - by rewrite decide_False by tauto.
    - rewrite decide_True by (split; [done|split; [set_solver|done]]).
      by destruct (ParseFloat _). }
  rewrite (round_lookup_ne _ _ "start") by done.
  destruct (decide (name = "time")) as [->|Htime].
  { rewrite round_lookup_eq.
    destruct (decide (Values_Get q "time" = "")) as [Hempty|Hfull].
    - by rewrite decide_False by tauto.
    - rewrite decide_True by (split; [done|split; [set_solver|done]]).
      by destruct (ParseFloat _). }
  rewrite (round_lookup_ne _ _ "time") by done.
  rewrite decide_False; [done|].
  intros (_ & Hin & _). unfold timeParams in Hin.
  rewrite !elem_of_cons, elem_of_nil in Hin.
  by destruct Hin as [->|[->|[->|[]]]].
Qed.

Lemma keyQuery_nonempty p r name vs :
  keyQuery ParseFloat p r !! name = Some vs → vs ≠ [].
Proof.
  rewrite keyQuery_lookup.
  destruct (bucketed ParseFloat p r name).
  - by intros [= <-].
  - apply ParseQuery_nonempty.
Qed.

(** The key is the method, the path and the sorted pairs of the rounded
    query. *)
Lemma generateCacheKey_spec p r :
  generateCacheKey ParseFloat p r
  = Method r +:+ ":" +:+ URL_Path r +:+ ":"
    +:+ String.concat "&" (pairString <$> sortedPairs (keyQuery ParseFloat p r)).
Proof.
  unfold generateCacheKey. do 4 f_equal.
  apply normalizeQueryString_spec. apply keyQuery_nonempty.
Qed.

End BucketFacts.

Section ValueClaims.
Import Go proxy spec.

Variable ParseFloat : string -> option float64.

(** C6.  The key is the method, the path and the serialized
    list of the sorted pairs of the query: the pairs are in ascending order
    of name and of value, and under a name that bucketing does not rewrite
    the pairs are the values that name carries in the request, one pair per
    value.  A time, start or end parameter that bucketing rewrites
    contributes one pair only, its bucket, whatever the number of its
    values. *)
Theorem C6_one_pair_per_value (p : HTTPCacheProxy) (r : Request) (name : string) :
  generateCacheKey ParseFloat p r
  = Method r +:+ ":" +:+ URL_Path r +:+ ":"
    +:+ String.concat "&" (pairString <$> sortedPairs (keyQuery ParseFloat p r))
  ∧ StronglySorted pairLe (sortedPairs (keyQuery ParseFloat p r))
  ∧ (name ∉ timeParams → bucketed ParseFloat p r name = None)
  ∧ match bucketed ParseFloat p r name with
    | None =>
        (filter (λ kv : string * string, kv.1 = name)
                (sortedPairs (keyQuery ParseFloat p r))).*2
        = sort_Strings (valuesOf name (URL_pairs r))
    | Some z =>
        (filter (λ kv : string * string, kv.1 = name)
                (sortedPairs (keyQuery ParseFloat p r))).*2
        = [FormatInt z]
    end.
Proof.
  split; [apply generateCacheKey_spec|].
  split; [apply sortedPairs_sorted|].
  split.
  { intros Hname. unfold bucketed. by rewrite decide_False by tauto. }
  rewrite sortedPairs_filter, lookup_total_alt, keyQuery_lookup.
  destruct (bucketed ParseFloat p r name) as [z|]; [done|].
  fold (URL_Query r !!! name). rewrite <-lookup_total_alt.
  unfold URL_Query. by rewrite ParseQuery_lookup_total.
Qed.

End ValueClaims.

(** ** Bucketing arithmetic *)

Section ArithFacts.
Import Go proxy spec.

Lemma wrap64_id z : MinInt64 ≤ z ≤ MaxInt64 → wrap64 z = z.
Proof.
  unfold MinInt64, MaxInt64, wrap64. intros Hz.
  rewrite Z.mod_small by lia. lia.
Qed.

Lemma int64_of_float64_range f :
  MinInt64 ≤ int64_of_float64 f ≤ MaxInt64.
Proof.
  unfold int64_of_float64.
  assert (MinInt64 ≤ MinInt64 ≤ MaxInt64) as Hmin by (by vm_compute).
  destruct (float64_trunc f) as [z|]; [|exact Hmin].
  destruct (MinInt64 <=? z) eqn:Hlo; cbn [andb]; [|exact Hmin].
  destruct (z <=? MaxInt64) eqn:Hhi; [|exact Hmin].
  apply Z.leb_le in Hlo, Hhi. done.
Qed.

Lemma int64_of_float64_trunc f v :
  float64_trunc f = Some v → MinInt64 ≤ v ≤ MaxInt64 → int64_of_float64 f = v.
Proof.
  intros Hv [Hlo Hhi]. unfold int64_of_float64. rewrite Hv.
  apply Z.leb_le in Hlo, Hhi. by rewrite Hlo, Hhi.
Qed.

(** Rounding down a non-negative number of seconds. *)
Lemma rounded_down T f v :
  0 < T → float64_trunc f = Some v → 0 ≤ v ≤ MaxInt64 →
  rounded T false f = v / T * T.
Proof.
  intros HT Hv Hrange. unfold rounded, mul64, quot64.
  assert (MinInt64 < 0) as Hmin by (by vm_compute).
  rewrite (int64_of_float64_trunc f v Hv) by lia.
  rewrite Z.quot_div_nonneg by lia.
  assert (0 ≤ v / T) by (apply Z.div_pos; lia).
  assert (v / T * T ≤ v) by (rewrite Z.mul_comm; apply Z.mul_div_le; lia).
  assert (v / T ≤ v / T * T) by nia.
  rewrite (wrap64_id (v / T)) by lia. apply wrap64_id. lia.
Qed.

(** Rounding up a non-negative number of seconds. *)
Lemma rounded_up T f v :
  0 < T → float64_trunc f = Some v → 0 ≤ v → v + T ≤ MaxInt64 →
  rounded T true f = (v + T - 1) / T * T.
Proof.
  intros HT Hv Hpos Hmax. unfold rounded, mul64, quot64, sub64, add64.
  assert (MinInt64 < 0) as Hmin by (by vm_compute).
  rewrite (int64_of_float64_trunc f v Hv) by lia.
  rewrite (wrap64_id (v + T)) by lia.
  rewrite (wrap64_id (v + T - 1)) by lia.
  rewrite Z.quot_div_nonneg by lia.
  assert (0 ≤ (v + T - 1) / T) by (apply Z.div_pos; lia).
  assert ((v + T - 1) / T * T ≤ v + T - 1)
    by (rewrite Z.mul_comm; apply Z.mul_div_le; lia).
  assert ((v + T - 1) / T ≤ (v + T - 1) / T * T) by nia.
  rewrite (wrap64_id ((v + T - 1) / T)) by lia. apply wrap64_id. lia.
Qed.

Lemma floor_multiple v T :
  0 < T → (T | v / T * T) ∧ v / T * T ≤ v < v / T * T + T.
Proof.
  intros HT. split; [by apply Z.divide_factor_r|].
  pose proof (Z.div_mod v T ltac:(lia)) as Hdm.
  pose proof (Z.mod_pos_bound v T HT). lia.
Qed.

Lemma ceil_multiple v T :
  0 < T → (T | (v + T - 1) / T * T) ∧ v ≤ (v + T - 1) / T * T < v + T.
Proof.
  intros HT. split; [by apply Z.divide_factor_r|].
  pose proof (Z.div_mod (v + T - 1) T ltac:(lia)) as Hdm.
  pose proof (Z.mod_pos_bound (v + T - 1) T HT). lia.
Qed.

End ArithFacts.

Section FloatFacts.
Import Go proxy spec.

(** The integer part of a non-negative finite float is the floor of its
    value. *)
Lemma floor_scaled (m : positive) (e : Z) :
  Qfloor (inject_Z (Z.pos m) * Qpower (2 # 1)%Q e)%Q
  = if 0 <=? e then Z.pos m * 2 ^ e else Z.pos m / 2 ^ (- e).
Proof.
  destruct (0 <=? e) eqn:He.
  - apply Z.leb_le in He.
    rewrite <-(Qfloor_Z (Z.pos m * 2 ^ e)). apply Qfloor_comp.
    rewrite inject_Z_mult, (Zpower_Qpower 2 e He). reflexivity.
  - apply Z.leb_gt in He.
    destruct e as [|k|k]; try lia.
    change (- Z.neg k) with (Z.pos k).
    rewrite <-Pos2Z.inj_pow.
    change (Z.pos m / Z.pos (2 ^ k)) with (Qfloor (Z.pos m # 2 ^ k)).
    apply Qfloor_comp.
    rewrite (Qmake_Qdiv (Z.pos m) (2 ^ k)).
    change (Z.neg k) with (- Z.pos k). rewrite Qpower_opp.
    rewrite Pos2Z.inj_pow. rewrite (Zpower_Qpower 2 (Z.pos k)) by lia.
    reflexivity.
Qed.

Lemma neg_scaled_lt_0 (m : positive) (e : Z) :
  (inject_Z (Z.neg m) * Qpower (2 # 1)%Q e < 0)%Q.
Proof.
  assert (0 < Qpower (2 # 1)%Q e)%Q as Hpow by (apply Qpower_0_lt; reflexivity).
  rewrite <-(Qmult_0_l (Qpower (2 # 1)%Q e)).
  apply Qmult_lt_compat_r; [exact Hpow|]. reflexivity.
Qed.

Lemma float64_trunc_floor f x :
  float64_value f = Some x → (0 <= x)%Q → float64_trunc f = Some (Qfloor x).
Proof.
  destruct f as [s|s| |s m e]; simpl; try done.
  - by intros [= <-] _.
  - intros [= <-] Hpos. f_equal. destruct s; simpl in *.
    + exfalso. apply (Qlt_not_le _ _ (neg_scaled_lt_0 m e)), Hpos.
    + symmetry. apply floor_scaled.
Qed.

Lemma Qfloor_nonneg x : (0 <= x)%Q → 0 ≤ Qfloor x.
Proof. intros Hx. apply (Qfloor_resp_le 0 x Hx). Qed.

Lemma Qfloor_div (x : Q) (T : Z) :
  0 < T → Qfloor (x / inject_Z T)%Q = Qfloor x / T.
Proof.
  intros HT. destruct T as [|t|t]; try lia.
  destruct x as [n d]. simpl.
  rewrite Z.mul_1_r, Pos2Z.inj_mul. by rewrite Z.div_div by lia.
Qed.

Lemma ceil_div_Z (z T : Z) : 0 < T → - ((- z) / T) = (z + T - 1) / T.
Proof.
  intros HT. apply (Z.div_unique _ _ _ (T - 1 - (- z) mod T)).
  - left. pose proof (Z.mod_pos_bound (- z) T HT). lia.
  - pose proof (Z.div_mod (- z) T ltac:(lia)). lia.
Qed.

Lemma Qceiling_div_Z (z T : Z) :
  0 < T → Qceiling (inject_Z z / inject_Z T)%Q = (z + T - 1) / T.
Proof.
  intros HT. unfold Qceiling.
  rewrite <-ceil_div_Z by done. f_equal.
  destruct T as [|t|t]; try lia. simpl.
  by rewrite Z.mul_1_r.
Qed.

End FloatFacts.

Section BucketClaims.
Import Go proxy spec.

Variable ParseFloat : string -> option float64.

(** C1.  Let [T] be the TTL in whole seconds (the fraction of
    a second discarded) and let it be positive.  For each of time, start
    and end whose first value is not empty and parses as a float of
    non-negative value [x], with the integer part of [x] plus [T] within
    int64, the rounded query holds under that name one value only, the
    decimal of the bucket: floor(x / T) * T for time and start, and
    ceil(floor(x) / T) * T for end, the fraction of [x] being discarded
    before the rounding up. *)
Theorem C1_time_parameters_are_bucketed
    (p : HTTPCacheProxy) (r : Request) (name : string) (f : float64) (x : Q) :
  name ∈ timeParams →
  ttlSeconds p > 0 →
  Values_Get (URL_Query r) name ≠ "" →
  ParseFloat (Values_Get (URL_Query r) name) = Some f →
  float64_value f = Some x →
  (0 <= x)%Q →
  Qfloor x + ttlSeconds p ≤ MaxInt64 →
  ∃ bucket,
    keyQuery ParseFloat p r !! name = Some [FormatInt bucket]
    ∧ (name ≠ "end" →
       bucket = Qfloor (x / inject_Z (ttlSeconds p))%Q * ttlSeconds p)
    ∧ (name = "end" →
       bucket = Qceiling (inject_Z (Qfloor x) / inject_Z (ttlSeconds p))%Q
                * ttlSeconds p).
Proof.
  intros Hname Httl Hfull Hparse Hvalue Hpos Hmax.
  assert (float64_trunc f = Some (Qfloor x)) as Htrunc
    by (by apply float64_trunc_floor).
  pose proof (Qfloor_nonneg x Hpos) as Hfloor.
  exists (rounded (ttlSeconds p) (bool_decide (name = "end")) f).
  split; [|split].
  - rewrite keyQuery_lookup. unfold bucketed.
    rewrite decide_True by done. by rewrite Hparse.
  - intros Hne. rewrite (bool_decide_eq_false_2 _ Hne).
    rewrite (rounded_down _ f (Qfloor x)) by (done || lia).
    by rewrite Qfloor_div by lia.
  - intros Heq. rewrite (bool_decide_eq_true_2 _ Heq).
    rewrite (rounded_up _ f (Qfloor x)) by (done || lia).
    by rewrite Qceiling_div_Z by lia.
Qed.

End BucketClaims.

Section KeyRuns.
Import Go proxy instances spec fixtures.

(** The examples of the bucketing rule, ttl = 300s: start=1000 becomes 900,
    end=1000 becomes 1200, time=950 becomes 900. *)
Lemma C1_witness :
  ttlSeconds prom = 300
  ∧ keyQuery parseDecimal prom buckets !! "start" = Some ["900"]
  ∧ keyQuery parseDecimal prom buckets !! "end" = Some ["1200"]
  ∧ keyQuery parseDecimal prom buckets !! "time" = Some ["900"].
Proof.
  assert (ttlSeconds prom > 0) as Httl by (vm_compute; reflexivity).
  split; [vm_compute; reflexivity|].
  split; [|split].
  - edestruct (C1_time_parameters_are_bucketed parseDecimal prom buckets "start")
      as (bucket & Hkey & Hdown & _).
    + unfold timeParams. set_solver.
    + exact Httl.
    + vm_compute. discriminate.
    + vm_compute. reflexivity.
    + vm_compute. reflexivity.
    + vm_compute. discriminate.
    + vm_compute. discriminate.
    + rewrite Hkey, Hdown by discriminate. vm_compute. reflexivity.
  - edestruct (C1_time_parameters_are_bucketed parseDecimal prom buckets "end")
      as (bucket & Hkey & _ & Hup).
    + unfold timeParams. set_solver.
    + exact Httl.
    + vm_compute. discriminate.
    + vm_compute. reflexivity.
    + vm_compute. reflexivity.
    + vm_compute. discriminate.
    + vm_compute. discriminate.
    + rewrite Hkey, Hup by reflexivity. vm_compute. reflexivity.
  - edestruct (C1_time_parameters_are_bucketed parseDecimal prom buckets "time")
      as (bucket & Hkey & Hdown & _).
    + unfold timeParams. set_solver.
    + exact Httl.
    + vm_compute. discriminate.
    + vm_compute. reflexivity.
    + vm_compute. reflexivity.
    + vm_compute. discriminate.
    + vm_compute. discriminate.
    + rewrite Hkey, Hdown by discriminate. vm_compute. reflexivity.
Defined.

(** C1 as the specification words it fails in three ways.  With ttl = 300s,
    end=900.5 is bucketed to 900 although ceil(900.5 / 300) * 300 = 1200,
    and start=-100 is bucketed to 0 although floor(-100 / 300) * 300 = -300.
    With a positive TTL of half a second the whole-second TTL is 0 and no
    value is replaced at all. *)
Lemma C1_counterexample :
  ttlSeconds prom = 300
  ∧ (∃ f x, parseDecimal "900.5" = Some f ∧ float64_value f = Some x
            ∧ (x == 1801 # 2)%Q
            ∧ Qceiling (x / inject_Z 300)%Q * 300 = 1200)
  ∧ keyQuery parseDecimal prom fractionalEnd !! "end" = Some ["900"]
  ∧ (∃ f x, parseDecimal "-100" = Some f ∧ float64_value f = Some x
            ∧ (x == -100 # 1)%Q
            ∧ Qfloor (x / inject_Z 300)%Q * 300 = -300)
  ∧ keyQuery parseDecimal prom negativeStart !! "start" = Some ["0"]
  ∧ cacheTTL halfSecond > 0
  ∧ ttlSeconds halfSecond = 0
  ∧ keyQuery parseDecimal halfSecond fractionalStart !! "start" = Some ["1000.3"].
Proof.
  split; [vm_compute; reflexivity|].
  split.
  { eexists _, _. split; [vm_compute; reflexivity|].
    split; [vm_compute; reflexivity|]. split; vm_compute; reflexivity. }
  split; [vm_compute; reflexivity|].
  split.
  { eexists _, _. split; [vm_compute; reflexivity|].
    split; [vm_compute; reflexivity|]. split; vm_compute; reflexivity. }
  split; [vm_compute; reflexivity|].
  split; [vm_compute; reflexivity|].
  split; vm_compute; reflexivity.
Qed.

(** C6 as the specification words it (no value of a repeated parameter is
    dropped) fails on a repeated time parameter: of the two values of
    start=1000, start=2000 the key holds one pair, start=900. *)
Lemma C6_counterexample :
  valuesOf "start" (URL_pairs twoStartsA) = ["1000"; "2000"]
  ∧ sortedPairs (keyQuery parseDecimal prom twoStartsA) = [("start", "900")]
  ∧ keyOf prom twoStartsA = "GET:/api/v1/query_range:start=900".
Proof. split; [|split]; vm_compute; reflexivity. Qed.

(** C9.  The key does not identify the request.  Names, values and the path
    are written into the key as they are, so a value holding "&" and "="
    reads as further pairs and a path holding ":" reads as a query: the
    requests [oneParam] and [twoParams] differ in their pairs, [colonPath]
    and [plainPath] differ in their paths, and each couple gets one key.
    After the answer to [twoParams] is stored, [oneParam] is answered from
    the cache without any upstream call. *)
Theorem C9_distinct_requests_share_a_key :
  sortedPairs (keyQuery parseDecimal prom oneParam) = [("a", "1&b=2")]
  ∧ sortedPairs (keyQuery parseDecimal prom twoParams) = [("a", "1"); ("b", "2")]
  ∧ keyOf prom oneParam = "GET:/api/v1/query:a=1&b=2"
  ∧ keyOf prom twoParams = "GET:/api/v1/query:a=1&b=2"
  ∧ URL_Path colonPath ≠ URL_Path plainPath
  ∧ keyOf prom colonPath = keyOf prom plainPath
  ∧ (let stored := c (handle prom (at_ 0 ok200) twoParams (fresh store)) in
     let s' := handle prom (at_ 10 unavailable503) oneParam (fresh stored) in
     calls s' = 0%nat
     ∧ wStatus (w s') = Some 200
     ∧ wHeader (w s') !! "X-Cache" = Some ["HIT"]).
Proof.
  split; [vm_compute; reflexivity|]. split; [vm_compute; reflexivity|].
  split; [vm_compute; reflexivity|]. split; [vm_compute; reflexivity|].
  split; [discriminate|]. split; [vm_compute; reflexivity|].
  split; [|split]; vm_compute; reflexivity.
Qed.

End KeyRuns.

(** * Further properties of the code *)

(** ** The TTL store: writes, deletions, sweeps, listings *)

Section CacheOperations.
Import cache spec.

Implicit Types (c : Cache) (key : string) (now : Z) (value : list byte).

Lemma Set_lookup now key value c k :
  items (Set_ now key value c) !! k
  = if decide (k = key)
    then Some {| Value := value; Expiration := now + ttl c |}
    else items c !! k.
Proof.
  unfold Set_; simpl. case_decide as Hk.
  - subst k. apply lookup_insert_eq.
  - by apply lookup_insert_ne.
Qed.

Lemma Get_lookup_ext now key c1 c2 :
  items c1 !! key = items c2 !! key → (Get now key c1).1 = (Get now key c2).1.
Proof.
  intros Heq. unfold Get. rewrite Heq.
  destruct (items c2 !! key) as [item|]; [|done]. by case_bool_decide.
Qed.


(** X2.  A write replaces what the key held (of two writes to one key the
    later one alone remains), keeps the configured lifetime, and changes
    what a read returns under no other key. *)
Theorem X2_Set_overwrites_one_key (t1 t2 : Z) key (v1 v2 : list byte) c :
  Set_ t2 key v2 (Set_ t1 key v1 c) = Set_ t2 key v2 c
  ∧ ttl (Set_ t1 key v1 c) = ttl c
  ∧ (∀ now other, other ≠ key →
       (Get now other (Set_ t1 key v1 c)).1 = (Get now other c).1).
Proof.
  split; [|split; [done|]].
  - unfold Set_; simpl. by rewrite insert_insert_eq.
  - intros now other Hne. apply Get_lookup_ext.
    by rewrite Set_lookup, decide_False.
Qed.

(** X3.  After a deletion the key is reported not found at every time, no
    other key is affected, and deleting a key that is not stored leaves the
    cache as it is. *)
Theorem X3_Delete_removes_one_key key c :
  (∀ now, (Get now key (Delete key c)).1 = ([], false))
  ∧ (∀ other, other ≠ key → items (Delete key c) !! other = items c !! other)
  ∧ (items c !! key = None → Delete key c = c).
Proof.
  split; [|split].
  - intros now. apply Get_absent. unfold Delete; simpl. apply lookup_delete_eq.
  - intros other Hne. unfold Delete; simpl. by apply lookup_delete_ne.
  - intros Hnone. destruct c as [its t]. unfold Delete; simpl in *.
    f_equal. by apply delete_id.
Qed.

(** X4.  A sweep is invisible to later reads: whatever key is read at a
    time not before the sweep, the answer is the one the unswept cache
    would have given. *)
Theorem X4_cleanup_invisible_to_Get (now later : Z) key c :
  now ≤ later →
  (Get later key (cleanup now c)).1 = (Get later key c).1.
Proof.
  intros Hle.
  destruct (items c !! key) as [item|] eqn:Hk.
  - destruct (decide (now > Expiration item)) as [Hexp|Hlive].
    + rewrite (Get_absent later key (cleanup now c))
        by (by apply (cleanup_lookup_expired now key c item)).
      symmetry. apply (Get_expired later key c item Hk). lia.
    + apply Get_lookup_ext.
      rewrite (cleanup_lookup_live now key c item Hk Hlive). done.
  - apply Get_lookup_ext. rewrite Hk.
    unfold cleanup; simpl. apply map_lookup_filter_None. by left.
Qed.

(** A cache holding one item that expired: written at 0 with a lifetime of
    100ns, swept at 150, read at 200. *)
Lemma X4_witness :
  100 ≤ 200
  ∧ items (cleanup 150 (Set_ 0 "k" ["v"%byte] (cache.New 100))) !! "k" = None
  ∧ (Get 200 "k" (cleanup 150 (Set_ 0 "k" ["v"%byte] (cache.New 100)))).1
    = (Get 200 "k" (Set_ 0 "k" ["v"%byte] (cache.New 100))).1.
Proof.
  split; [lia|]. split; [vm_compute; reflexivity|].
  apply X4_cleanup_invisible_to_Get. lia.
Defined.

(** X5.  After a sweep at [now] the cache holds exactly the items that were
    stored and are live at [now]; the lifetime is kept; and a second sweep
    at the same or an earlier time removes nothing more. *)
Theorem X5_cleanup_keeps_the_live_items (now : Z) c :
  (∀ key item,
     items (cleanup now c) !! key = Some item
     ↔ items c !! key = Some item ∧ live now item)
  ∧ ttl (cleanup now c) = ttl c
  ∧ (∀ earlier, earlier ≤ now → cleanup earlier (cleanup now c) = cleanup now c).
Proof.
  split; [|split; [done|]].
  - intros key item. unfold cleanup; simpl.
    rewrite map_lookup_filter_Some. done.
  - intros earlier Hle. unfold cleanup; simpl. f_equal.
    apply map_eq. intros key. apply option_eq. intros item.
    rewrite !map_lookup_filter_Some. simpl. split; [tauto|].
    intros [Hk Hlive]. split; [done|]. unfold live in *. lia.
Qed.

(** X6.  [Keys] lists every stored key exactly once, whether its item has
    expired or not: a key is listed if and only if an item is stored under
    it, and the number of keys listed is the number of items stored.  So an
    expired item that no sweep has removed yet is listed although [Get]
    reports it not found, and is no longer listed after the sweep. *)
Theorem X6_Keys_lists_stored_items c :
  NoDup (Keys c)
  ∧ (∀ key, key ∈ Keys c ↔ is_Some (items c !! key))
  ∧ length (Keys c) = size (items c)
  ∧ (∀ now key item,
       items c !! key = Some item → now > Expiration item →
       key ∈ Keys c
       ∧ (Get now key c).1 = ([], false)
       ∧ key ∉ Keys (cleanup now c)).
Proof.
  assert (∀ c' key, key ∈ Keys c' ↔ is_Some (items c' !! key)) as Hkeys.
  { intros c' key. unfold Keys. rewrite list_elem_of_fmap. split.
    - intros ([k item] & -> & Hin). apply elem_of_map_to_list in Hin.
      by exists item.
    - intros [item Hitem]. exists (key, item). split; [done|].
      by apply elem_of_map_to_list. }
  split; [|split; [|split]].
  - apply NoDup_fst_map_to_list.
  - apply Hkeys.
  - unfold Keys. by rewrite length_fmap, length_map_to_list.
  - intros now key item Hk Hexp. split; [|split].
    + apply Hkeys. by exists item.
    + by apply (Get_expired now key c item).
    + rewrite Hkeys, (cleanup_lookup_expired now key c item Hk Hexp).
      by intros [? ?].
Qed.

End CacheOperations.

(** ** The handler: hits, errors, markers, what it leaves alone *)

Section HandlerPaths.
Import Go cache proxy spec.

Variable ParseFloat : string -> option float64.
Variable Marshal    : Response -> option (list byte).
Variable Unmarshal  : list byte -> option Response.

Implicit Types (p : HTTPCacheProxy) (env : Env) (r : Request) (cch : Cache)
  (s : World) (key name : string).

Local Abbreviation tryServe := (tryServeCachedResponse Unmarshal).
Local Abbreviation forward := (forwardRequest Marshal).
Local Abbreviation Handle := (HandleRequest ParseFloat Marshal Unmarshal).
Local Abbreviation keyOf := (generateCacheKey ParseFloat).
Local Abbreviation hit := (cacheHit Unmarshal).

Lemma tryServe_served env key s item cachedResp :
  items (c s) !! key = Some item →
  live (t_lookup env) item →
  Unmarshal (Value item) = Some cachedResp →
  tryServe env key s
  = (true, {| w := hitResponse cachedResp (w s); c := c s; calls := calls s |}).
Proof.
  intros Hk Hlive Hresp. unfold tryServeCachedResponse, Get. rewrite Hk.
  rewrite bool_decide_eq_false_2 by done. simpl. by rewrite Hresp.
Qed.

Lemma Handle_hit p env r s item cachedResp :
  Method r = MethodGet →
  items (c s) !! keyOf p r = Some item →
  live (t_lookup env) item →
  Unmarshal (Value item) = Some cachedResp →
  Handle p env r s
  = {| w := hitResponse cachedResp (w s); c := c s; calls := calls s |}.
Proof.
  intros Hget Hk Hlive Hresp. unfold HandleRequest.
  rewrite bool_decide_eq_true_2 by done.
  by rewrite (tryServe_served env _ s item cachedResp).
Qed.

Lemma hitResponse_fields cachedResp w :
  wStatus w = None →
  wStatus (hitResponse cachedResp w) = Some (StatusCode cachedResp)
  ∧ wBody (hitResponse cachedResp w) = wBody w ++ Body cachedResp
  ∧ wHeader (hitResponse cachedResp w)
    = <["X-Cache" := ["HIT"]]> (wHeader (copyHeaders (Headers cachedResp) w)).
Proof.
  intros Hw. unfold hitResponse.
  rewrite (proj1 (proj2 (Write_fields _ _))), (proj2 (proj2 (Write_fields _ _))),
    (proj1 (Write_fields _ _)).
  rewrite (proj1 (proj2 (WriteHeader_fields _ _))),
    (proj2 (proj2 (WriteHeader_fields _ _))), (proj1 (WriteHeader_fields _ _)).
  simpl. rewrite (proj1 (copyHeaders_rest _ _)), (proj2 (copyHeaders_rest _ _)), Hw.
  done.
Qed.


End HandlerPaths.

Section HandlerExtras.
Import Go cache proxy spec.

Variable ParseFloat : string -> option float64.
Variable Marshal    : Response -> option (list byte).
Variable Unmarshal  : list byte -> option Response.

Implicit Types (p : HTTPCacheProxy) (env : Env) (r : Request) (cch : Cache)
  (key name : string).

Local Abbreviation forward := (forwardRequest Marshal).
Local Abbreviation Handle := (HandleRequest ParseFloat Marshal Unmarshal).
Local Abbreviation keyOf := (generateCacheKey ParseFloat).
Local Abbreviation hit := (cacheHit Unmarshal).





Lemma Error_no_marker msg code (w : ResponseWriter) :
  wHeader w !! "X-Cache" = None →
  wHeader (Error msg code w) !! "X-Cache" = None.
Proof.
  intros Hw. unfold Error.
  rewrite (proj1 (Write_fields _ _)), (proj1 (WriteHeader_fields _ _)).
  unfold w_Header_Set, w_Header_Del, Header_Set, Header_Del; simpl.
  change (CanonicalMIMEHeaderKey "X-Content-Type-Options")
    with "X-Content-Type-Options".
  change (CanonicalMIMEHeaderKey "Content-Type") with "Content-Type".
  change (CanonicalMIMEHeaderKey "Content-Length") with "Content-Length".
  by rewrite !lookup_insert_ne, lookup_delete_ne.
Qed.

(** X9.  A request that reaches the fallback and fails before an upstream
    body is in hand is answered 500 without an X-Cache header and leaves
    the cache as it was: with no upstream call when the upstream request
    cannot be prepared, after one upstream call when the body of the
    upstream response cannot be read. *)
Theorem X9_fallback_errors_answer_500 p env r cch :
  ¬ (Method r = MethodGet ∧ hit (t_lookup env) (keyOf p r) cch) →
  (roundtrip env = PrepareFailed →
     wStatus (w (Handle p env r (fresh cch))) = Some StatusInternalServerError
     ∧ wHeader (w (Handle p env r (fresh cch))) !! "X-Cache" = None
     ∧ calls (Handle p env r (fresh cch)) = 0%nat
     ∧ c (Handle p env r (fresh cch)) = cch)
  ∧ (∀ resp, roundtrip env = ReadFailed resp →
     wStatus (w (Handle p env r (fresh cch))) = Some StatusInternalServerError
     ∧ wHeader (w (Handle p env r (fresh cch))) !! "X-Cache" = None
     ∧ calls (Handle p env r (fresh cch)) = 1%nat
     ∧ c (Handle p env r (fresh cch)) = cch).
Proof.
  intros Hmiss. rewrite Handle_forwarded by done. unfold forwardRequest.
  split.
  - intros ->. cbn [w c calls fresh].
    split; [by apply Error_status|]. split; [by apply Error_no_marker|done].
  - intros resp ->. cbn [w c calls fresh].
    split; [by apply Error_status|]. split; [by apply Error_no_marker|done].
Qed.

(** X10.  One request costs at most one upstream call, and the X-Cache
    header of its answer tells which path it took: HIT exactly when it was
    served from the cache, MISS exactly when it was forwarded and the
    upstream response was relayed, and no X-Cache header exactly when it
    was forwarded and answered with an error. *)
Theorem X10_marker_tells_the_path p env r cch :
  (calls (Handle p env r (fresh cch)) ≤ 1)%nat
  ∧ (wHeader (w (Handle p env r (fresh cch))) !! "X-Cache" = Some ["HIT"]
     ↔ Method r = MethodGet ∧ hit (t_lookup env) (keyOf p r) cch)
  ∧ (wHeader (w (Handle p env r (fresh cch))) !! "X-Cache" = Some ["MISS"]
     ↔ ¬ (Method r = MethodGet ∧ hit (t_lookup env) (keyOf p r) cch)
       ∧ ∃ resp body, roundtrip env = Responded resp body)
  ∧ (wHeader (w (Handle p env r (fresh cch))) !! "X-Cache" = None
     ↔ ¬ (Method r = MethodGet ∧ hit (t_lookup env) (keyOf p r) cch)
       ∧ ∀ resp body, roundtrip env ≠ Responded resp body).
Proof.
  destruct (served_cases Unmarshal (t_lookup env) (keyOf p r) r cch)
    as [[Hget Hhit]|Hmiss].
  - destruct Hhit as (item & cachedResp & Hk & Hlive & Hresp).
    assert (hit (t_lookup env) (keyOf p r) cch) as Hhit
      by (by exists item, cachedResp).
    rewrite (Handle_hit ParseFloat Marshal Unmarshal p env r (fresh cch)
               item cachedResp) by done.
    cbn [w c calls fresh].
    destruct (hitResponse_fields cachedResp newResponseWriter eq_refl)
      as (_ & _ & ->).
    rewrite lookup_insert_eq.
    split; [lia|]. split; [done|]. split.
    + split; [done|]. intros [Hno _]. by destruct Hno.
    + split; [done|]. intros [Hno _]. by destruct Hno.
  - rewrite Handle_forwarded by done. unfold forwardRequest.
    destruct (roundtrip env) as [| |resp|resp body] eqn:Hround;
      cbn [w c calls fresh].
    4: { rewrite writeResponse_X_Cache.
         split; [lia|]. split; [|split].
         - split; [done|]. intros Hhit. by destruct Hmiss.
         - split; [|done]. intros _. split; [done|]. by exists resp, body.
         - split; [done|]. intros [_ Hnone]. by destruct (Hnone resp body). }
    all: rewrite Error_no_marker by done.
    all: split; [lia|].
    all: split; [split; [done|intros Hhit; by destruct Hmiss]|].
    all: split; [split; [done|by intros [_ (? & ? & ?)]]|].
    all: done.
Qed.

(** X11.  Whatever the request and its outcome, the handler changes the
    cache under the request's own key at most: every other key keeps its
    item, no stored key disappears, and the lifetime stays. *)
Theorem X11_handler_touches_its_own_key_only p env r cch :
  (∀ k, k ≠ keyOf p r →
        items (c (Handle p env r (fresh cch))) !! k = items cch !! k)
  ∧ (∀ k, is_Some (items cch !! k) →
          is_Some (items (c (Handle p env r (fresh cch))) !! k))
  ∧ ttl (c (Handle p env r (fresh cch))) = ttl cch.
Proof.
  destruct (Handle_cache_cases ParseFloat Marshal Unmarshal p env r cch)
    as [->|(_ & resp & body & _ & _ & ->)]; [done|].
  split; [|split].
  - intros k Hne. rewrite cacheResponse_items.
    destruct (Marshal _); [|done]. by rewrite decide_False.
  - intros k Hsome. rewrite cacheResponse_items.
    destruct (Marshal _); [|done]. by case_decide.
  - unfold cacheResponse. by destruct (Marshal _).
Qed.

End HandlerExtras.

Section HandlerExtraRuns.
Import Go cache proxy instances spec fixtures.



(** A GET of [queryUp] on the empty cache whose upstream answer breaks off
    in the body. *)
Lemma X9_witness :
  wStatus (w (handle prom (at_ 10 truncated) queryUp (fresh store))) = Some 500
  ∧ calls (handle prom (at_ 10 truncated) queryUp (fresh store)) = 1%nat
  ∧ c (handle prom (at_ 10 truncated) queryUp (fresh store)) = store.
Proof.
  assert (¬ (Method queryUp = MethodGet
             ∧ cacheHit lineUnmarshal (t_lookup (at_ 10 truncated))
                 (keyOf prom queryUp) store)) as Hmiss.
  { intros [_ (item & x & Hitem & _)]. vm_compute in Hitem. discriminate Hitem. }
  destruct (proj2 (X9_fallback_errors_answer_500 parseDecimal lineMarshal lineUnmarshal
                     prom (at_ 10 truncated) queryUp store Hmiss)
                  {| resp_StatusCode := 200; resp_Header := upstreamHeader |} eq_refl)
    as (Hstatus & _ & Hcalls & Hcache).
  split; [exact Hstatus|]. split; [exact Hcalls|exact Hcache].
Defined.

End HandlerExtraRuns.

(** ** What a running proxy keeps in its cache *)

Section RunInvariants.
Import Go cache proxy spec runs.

Variable ParseFloat : string -> option float64.
Variable Marshal    : Response -> option (list byte).
Variable Unmarshal  : list byte -> option Response.
Variable upstream : string.
Variable lifetime : Z.

Local Abbreviation reach := (reachable ParseFloat Marshal Unmarshal upstream lifetime).
Local Abbreviation keyOf := (generateCacheKey ParseFloat).

Lemma GET_key_prefix (p : HTTPCacheProxy) (r : Request) :
  Method r = MethodGet → isGetKey (keyOf p r).
Proof.
  intros Hget. unfold isGetKey, generateCacheKey. rewrite Hget.
  generalize (URL_Path r +:+ ":" +:+ normalizeQueryString (keyQuery ParseFloat p r)).
  intros rest. by destruct rest; vm_compute.
Qed.

(** X12.  In every cache a running proxy can hold, the lifetime is the
    configured one and every key was built from a GET request: it starts
    with "GET:". *)
Theorem X12_reachable_keys_are_GET_keys (cch : Cache) :
  reach cch →
  ttl cch = lifetime
  ∧ ∀ key, is_Some (items cch !! key) → isGetKey key.
Proof.
  induction 1 as [|env r cch Hreach [IHttl IHkeys]|now cch Hreach [IHttl IHkeys]].
  - split; [done|]. intros key [item Hitem]. simpl in Hitem.
    by rewrite lookup_empty in Hitem.
  - destruct (Handle_cache_cases ParseFloat Marshal Unmarshal
                (theProxy upstream lifetime) env r cch)
      as [->|(Hget & resp & body & _ & _ & ->)]; [done|].
    split.
    + unfold cacheResponse. by destruct (Marshal _).
    + intros key. rewrite cacheResponse_items.
      destruct (Marshal _); [|apply IHkeys].
      case_decide as Hkey; [|apply IHkeys].
      intros _. subst key. by apply GET_key_prefix.
  - split; [done|]. intros key [item Hitem].
    apply map_lookup_filter_Some in Hitem as [Hitem _].
    apply IHkeys. by exists item.
Qed.

(** X13.  In every cache a running proxy can hold, every stored value is
    the serialization of a response with status 200 whose headers are
    upstream headers without Date, Connection, Transfer-Encoding and
    Keep-Alive in any letter case. *)
Theorem X13_reachable_items_are_stored_200s (cch : Cache) key item :
  reach cch →
  items cch !! key = Some item →
  ∃ (h : Header) (body : list byte),
    Marshal {| Headers := cachedHeaders h; StatusCode := StatusOK; Body := body |}
    = Some (Value item)
    ∧ ∀ name, denied name → cachedHeaders h !! name = None.
Proof.
  intros Hreach. revert key item.
  induction Hreach as [|env r cch Hreach IH|now cch Hreach IH]; intros key item.
  - simpl. by rewrite lookup_empty.
  - destruct (Handle_cache_cases ParseFloat Marshal Unmarshal
                (theProxy upstream lifetime) env r cch)
      as [->|(Hget & resp & body & _ & Hok & ->)]; [apply IH|].
    rewrite cacheResponse_items, Hok.
    destruct (Marshal _) as [data|] eqn:Hdata; [|apply IH].
    case_decide as Hkey; [|apply IH].
    intros [= <-]. exists (resp_Header resp), body. split; [done|].
    intros name Hden. rewrite cachedHeaders_lookup.
    by rewrite (proj2 (shouldSkip_denied name) Hden).
  - intros Hitem. apply map_lookup_filter_Some in Hitem as [Hitem _].
    by apply (IH key item).
Qed.

End RunInvariants.

Section RunInvariantRuns.
Import Go cache proxy instances spec runs fixtures.

Lemma populated_reachable :
  reachable parseDecimal lineMarshal lineUnmarshal
    "http://localhost:9090" fiveMinutes populated.
Proof.
  apply (reach_request parseDecimal lineMarshal lineUnmarshal
           "http://localhost:9090" fiveMinutes (at_ 0 ok200) queryUp store).
  apply reach_New.
Qed.

(** The cache after the first GET of [queryUp]. *)
Lemma X12_witness :
  is_Some (items populated !! keyOf prom queryUp)
  ∧ ttl populated = fiveMinutes
  ∧ isGetKey (keyOf prom queryUp).
Proof.
  assert (is_Some (items populated !! keyOf prom queryUp)) as Hstored
    by (vm_compute; eauto).
  destruct (X12_reachable_keys_are_GET_keys parseDecimal lineMarshal lineUnmarshal
              "http://localhost:9090" fiveMinutes populated populated_reachable)
    as [Httl Hkeys].
  split; [exact Hstored|]. split; [exact Httl|]. by apply Hkeys.
Defined.

Lemma X13_witness :
  ∃ item (h : Header) (body : list byte),
    items populated !! keyOf prom queryUp = Some item
    ∧ lineMarshal {| Headers := cachedHeaders h; StatusCode := StatusOK;
                     Body := body |} = Some (Value item).
Proof.
  eexists. 
  assert (items populated !! keyOf prom queryUp = Some _) as Hitem
    by (vm_compute; reflexivity).
  destruct (X13_reachable_items_are_stored_200s parseDecimal lineMarshal lineUnmarshal
              "http://localhost:9090" fiveMinutes populated _ _
              populated_reachable Hitem)
    as (h & body & Hdata & _).
  exists h, body. split; [exact Hitem|exact Hdata].
Defined.

End RunInvariantRuns.

(** ** Cache keys: what bucketing leaves alone, empty queries *)

Section KeyEdges.
Import Go proxy spec.

Variable ParseFloat : string -> option float64.

Implicit Types (p : HTTPCacheProxy) (r : Request) (name : string).

Lemma bucketed_None_lookup p r name :
  bucketed ParseFloat p r name = None →
  keyQuery ParseFloat p r !! name = URL_Query r !! name.
Proof. intros Hnone. by rewrite keyQuery_lookup, Hnone. Qed.

(** X14.  Bucketing rewrites nothing but numeric time parameters: every
    parameter other than time, start and end keeps its values; so does a
    time, start or end parameter whose first value is empty or does not
    parse as a number; and when the TTL is shorter than one second the
    whole query is left as it is. *)
Theorem X14_bucketing_leaves_the_rest p r name :
  (name ∉ timeParams →
     keyQuery ParseFloat p r !! name = URL_Query r !! name)
  ∧ (Values_Get (URL_Query r) name = "" →
     keyQuery ParseFloat p r !! name = URL_Query r !! name)
  ∧ (ParseFloat (Values_Get (URL_Query r) name) = None →
     keyQuery ParseFloat p r !! name = URL_Query r !! name)
  ∧ (ttlSeconds p ≤ 0 → keyQuery ParseFloat p r = URL_Query r).
Proof.
  split; [|split; [|split]].
  - intros Hname. apply bucketed_None_lookup. unfold bucketed.
    by rewrite decide_False by tauto.
  - intros Hempty. apply bucketed_None_lookup. unfold bucketed.
    by rewrite decide_False by tauto.
  - intros Hparse. apply bucketed_None_lookup. unfold bucketed.
    case_decide; [|done]. by rewrite Hparse.
  - intros Httl. apply map_eq. intros k. apply bucketed_None_lookup.
    unfold bucketed. rewrite decide_False; [done|]. intros [Hpos _]. lia.
Qed.

(** X15.  A request without query parameters gets the key made of its
    method, its path and an empty query: "METHOD:path:", whatever the TTL. *)
Theorem X15_key_of_an_empty_query p r :
  URL_pairs r = [] →
  generateCacheKey ParseFloat p r = Method r +:+ ":" +:+ URL_Path r +:+ ":".
Proof.
  intros Hempty. unfold generateCacheKey.
  assert (keyQuery ParseFloat p r = ∅) as ->.
  { apply map_eq. intros k. rewrite lookup_empty.
    rewrite bucketed_None_lookup.
    - unfold URL_Query. by rewrite Hempty.
    - unfold bucketed. rewrite decide_False; [done|].
      intros (_ & _ & Hfull). apply Hfull.
      unfold URL_Query. by rewrite Hempty. }
  done.
Qed.

End KeyEdges.

Section KeyEdgeRuns.
Import Go proxy instances spec fixtures.

(** A path without a query. *)
Lemma X15_witness :
  keyOf prom (get "/api/v1/labels" []) = "GET:/api/v1/labels:".
Proof.
  exact (X15_key_of_an_empty_query parseDecimal prom (get "/api/v1/labels" []) eq_refl).
Defined.

End KeyEdgeRuns.

(** ** Cache keys: one bucket, one key *)

Section BucketCollapse.
Import Go proxy spec.

Variable ParseFloat : string -> option float64.

Implicit Types (p : HTTPCacheProxy) (name k : string)
  (pairs rest : list (string * string)).

Lemma Values_Get_ParseQuery pairs k :
  Values_Get (ParseQuery pairs) k
  = match valuesOf k pairs with [] => "" | v :: _ => v end.
Proof.
  unfold Values_Get. rewrite ParseQuery_lookup.
  by destruct (valuesOf k pairs).
Qed.

Lemma valuesOf_cons_eq name v rest :
  valuesOf name ((name, v) :: rest) = v :: valuesOf name rest.
Proof. unfold valuesOf. by rewrite filter_cons_True. Qed.

Lemma valuesOf_cons_ne name k v rest :
  k ≠ name → valuesOf k ((name, v) :: rest) = valuesOf k rest.
Proof.
  intros Hne. unfold valuesOf. rewrite filter_cons_False; [done|].
  simpl. congruence.
Qed.

Lemma rounded_down_same_bucket T f1 f2 :
  0 < T →
  0 ≤ int64_of_float64 f1 → 0 ≤ int64_of_float64 f2 →
  int64_of_float64 f1 / T = int64_of_float64 f2 / T →
  rounded T false f1 = rounded T false f2.
Proof.
  intros HT H1 H2 Hsame. unfold rounded, mul64, quot64.
  by rewrite !Z.quot_div_nonneg, Hsame by lia.
Qed.

(** X16.  Two requests that differ only in the first value of time, or of
    start, get the same key when the integer parts of the two values are
    not negative and lie in the same TTL bucket. *)
Theorem X16_one_bucket_one_key p (m path : string) name (s1 s2 : string)
    (f1 f2 : float64) rest :
  ttlSeconds p > 0 →
  name = "time" ∨ name = "start" →
  s1 ≠ "" → s2 ≠ "" →
  ParseFloat s1 = Some f1 → ParseFloat s2 = Some f2 →
  0 ≤ int64_of_float64 f1 → 0 ≤ int64_of_float64 f2 →
  int64_of_float64 f1 / ttlSeconds p = int64_of_float64 f2 / ttlSeconds p →
  generateCacheKey ParseFloat p
    {| Method := m; URL_Path := path; URL_pairs := (name, s1) :: rest |}
  = generateCacheKey ParseFloat p
      {| Method := m; URL_Path := path; URL_pairs := (name, s2) :: rest |}.
Proof.
  intros Httl Hname Hs1 Hs2 Hf1 Hf2 Hpos1 Hpos2 Hsame.
  unfold generateCacheKey. simpl. do 5 f_equal.
  apply map_eq. intros k. rewrite !keyQuery_lookup.
  unfold bucketed, URL_Query. simpl.
  rewrite !Values_Get_ParseQuery, !ParseQuery_lookup.
  destruct (decide (k = name)) as [->|Hne].
  - rewrite !valuesOf_cons_eq.
    assert (name ∈ timeParams) as Hin
      by (unfold timeParams; destruct Hname as [->| ->]; set_solver).
    assert (name ≠ "end") as Hend by (by destruct Hname as [->| ->]).
    rewrite !decide_True by done. rewrite Hf1, Hf2. simpl.
    rewrite (bool_decide_eq_false_2 _ Hend).
    by rewrite (rounded_down_same_bucket _ f1 f2) by (done || lia).
  - by rewrite !valuesOf_cons_ne by done.
Qed.

End BucketCollapse.

Section BucketCollapseRuns.
Import Go proxy instances spec fixtures.

(** start=1000 and start=1100 with ttl = 300s: both in the bucket of 900. *)
Lemma X16_witness :
  keyOf prom (get "/api/v1/query_range" [("start", "1000"); ("query", "up")])
  = keyOf prom (get "/api/v1/query_range" [("start", "1100"); ("query", "up")])
  ∧ keyOf prom (get "/api/v1/query_range" [("start", "1000"); ("query", "up")])
    = "GET:/api/v1/query_range:query=up&start=900".
Proof.
  split; [|vm_compute; reflexivity].
  eapply (X16_one_bucket_one_key parseDecimal prom "GET" "/api/v1/query_range"
            "start" "1000" "1100").
  - vm_compute. reflexivity.
  - by right.
  - discriminate.
  - discriminate.
  - vm_compute. reflexivity.
  - vm_compute. reflexivity.
  - vm_compute. discriminate.
  - vm_compute. discriminate.
  - vm_compute. reflexivity.
Defined.

End BucketCollapseRuns.

(** ** Cache keys: requests without separators in their parts *)

Section SplitFacts.
Import Go proxy spec.

Implicit Types (ch : ascii) (a b s t : string).

Lemma string_app_cons ch s t : String ch s +:+ t = String ch (s +:+ t).
Proof. done. Qed.

Lemma free_app ch a b : free ch (a +:+ b) ↔ free ch a ∧ free ch b.
Proof.
  induction a as [|x a IH].
  - change ("" +:+ b) with b. simpl. tauto.
  - rewrite string_app_cons. simpl. rewrite IH. tauto.
Qed.

(** A string is cut at the first occurrence of a byte in one way only. *)
Lemma split_unique ch a1 a2 b1 b2 :
  free ch a1 → free ch a2 →
  a1 +:+ String ch b1 = a2 +:+ String ch b2 → a1 = a2 ∧ b1 = b2.
Proof.
  revert a2. induction a1 as [|x a1 IH]; intros [|y a2] Hfree1 Hfree2 Heq.
  - change (String ch b1 = String ch b2) in Heq. by injection Heq as ->.
  - change (String ch b1 = String y (a2 +:+ String ch b2)) in Heq.
    injection Heq as Hch _. destruct Hfree2 as [Hy _]. by destruct Hy.
  - change (String x (a1 +:+ String ch b1) = String ch b2) in Heq.
    injection Heq as Hch _. destruct Hfree1 as [Hx _]. by destruct Hx.
  - rewrite !string_app_cons in Heq. injection Heq as -> Heq.
    destruct Hfree1 as [_ Hfree1], Hfree2 as [_ Hfree2].
    destruct (IH a2 Hfree1 Hfree2 Heq) as [-> ->]. done.
Qed.

Lemma not_free_cut ch a b : ¬ free ch (a +:+ String ch b).
Proof. rewrite free_app. simpl. by intros [_ [Hch _]]. Qed.

Lemma cut_nonempty ch a b : a +:+ String ch b ≠ "".
Proof. by destruct a. Qed.

Lemma pairString_cut (kv : string * string) :
  pairString kv = kv.1 +:+ String "=" kv.2.
Proof. done. Qed.

Lemma pairString_inj (kv1 kv2 : string * string) :
  free "=" kv1.1 → free "=" kv2.1 →
  pairString kv1 = pairString kv2 → kv1 = kv2.
Proof.
  intros Hfree1 Hfree2. rewrite !pairString_cut. intros Heq.
  destruct (split_unique _ _ _ _ _ Hfree1 Hfree2 Heq) as [Hk Hv].
  destruct kv1, kv2. simpl in *. by subst.
Qed.

Lemma pairString_free (kv : string * string) :
  free "&" kv.1 → free "&" kv.2 → free "&" (pairString kv).
Proof.
  intros Hk Hv. rewrite pairString_cut, free_app. simpl.
  split; [done|]. split; [discriminate|done].
Qed.

Lemma concat_cons2 sep x y (l : list string) :
  String.concat sep (x :: y :: l) = x +:+ sep +:+ String.concat sep (y :: l).
Proof. done. Qed.

(** Joining with "&" can be undone when no piece is empty or holds "&". *)
Lemma concat_amp_inj (l1 l2 : list string) :
  Forall (λ x, free "&" x ∧ x ≠ "") l1 →
  Forall (λ x, free "&" x ∧ x ≠ "") l2 →
  String.concat "&" l1 = String.concat "&" l2 → l1 = l2.
Proof.
  revert l2. induction l1 as [|x l1 IH]; intros l2 Hl1 Hl2 Heq.
  - destruct l2 as [|y [|z l2]]; [done| |].
    + apply Forall_cons in Hl2 as [[_ Hy] _]. by destruct Hy.
    + rewrite concat_cons2 in Heq.
      change ("&" +:+ String.concat "&" (z :: l2))
        with (String "&" (String.concat "&" (z :: l2))) in Heq.
      symmetry in Heq. by apply cut_nonempty in Heq.
  - apply Forall_cons in Hl1 as [[Hx Hxne] Hl1].
    destruct l2 as [|y l2].
    { destruct l1 as [|x' l1]; [by destruct Hxne|].
      rewrite concat_cons2 in Heq.
      change ("&" +:+ String.concat "&" (x' :: l1))
        with (String "&" (String.concat "&" (x' :: l1))) in Heq.
      by apply cut_nonempty in Heq. }
    apply Forall_cons in Hl2 as [[Hy Hyne] Hl2].
    destruct l1 as [|x' l1], l2 as [|y' l2].
    + change (x = y) in Heq. by subst.
    + rewrite concat_cons2 in Heq.
      change ("&" +:+ String.concat "&" (y' :: l2))
        with (String "&" (String.concat "&" (y' :: l2))) in Heq.
      change (String.concat "&" [x]) with x in Heq.
      subst x. by apply not_free_cut in Hx.
    + rewrite concat_cons2 in Heq.
      change ("&" +:+ String.concat "&" (x' :: l1))
        with (String "&" (String.concat "&" (x' :: l1))) in Heq.
      change (String.concat "&" [y]) with y in Heq.
      subst y. by apply not_free_cut in Hy.
    + rewrite !concat_cons2 in Heq.
      change ("&" +:+ String.concat "&" (x' :: l1))
        with (String "&" (String.concat "&" (x' :: l1))) in Heq.
      change ("&" +:+ String.concat "&" (y' :: l2))
        with (String "&" (String.concat "&" (y' :: l2))) in Heq.
      destruct (split_unique _ _ _ _ _ Hx Hy Heq) as [-> Hrest].
      f_equal. by apply IH.
Qed.

Lemma uint_digits_free (d : Decimal.uint) : free "&" (NilEmpty.string_of_uint d).
Proof. induction d; simpl; (split; [discriminate|done]) || done. Qed.

(** A decimal numeral holds no ampersand. *)
Lemma FormatInt_free z : free "&" (FormatInt z).
Proof.
  unfold FormatInt. destruct (Z.to_int z) as [d|d]; simpl.
  - destruct d; try apply (uint_digits_free (_ _)). simpl. by split.
  - split; [discriminate|].
    destruct d; try apply (uint_digits_free (_ _)). simpl. by split.
Qed.

End SplitFacts.

Section PlainKeys.
Import Go proxy spec.

Variable ParseFloat : string -> option float64.

Implicit Types (p : HTTPCacheProxy) (r : Request) (q : Values)
  (kv : string * string).

Lemma valuesOf_elem (k v : string) (pairs : list (string * string)) :
  v ∈ valuesOf k pairs ↔ (k, v) ∈ pairs.
Proof.
  unfold valuesOf. rewrite list_elem_of_fmap. split.
  - intros ([k' v'] & -> & Hin). apply list_elem_of_filter in Hin as [Hk Hin].
    simpl in *. by subst.
  - intros Hin. exists (k, v). split; [done|].
    by apply list_elem_of_filter.
Qed.

Lemma sortedPairs_elem q kv :
  kv ∈ sortedPairs q → ∃ vs, q !! kv.1 = Some vs ∧ kv.2 ∈ vs.
Proof.
  unfold sortedPairs. rewrite list_elem_of_bind.
  intros (name & Hin & Hname). apply list_elem_of_fmap in Hin as (v & -> & Hv).
  apply sorted_keys_elem in Hname as [vs Hvs]. exists vs. split; [done|].
  rewrite sort_Strings_Permutation, lookup_total_alt, Hvs in Hv. done.
Qed.

(** The pairs of the key of a plain request hold no separator either. *)
Lemma keyQuery_plain p r kv :
  plainRequest r → kv ∈ sortedPairs (keyQuery ParseFloat p r) →
  free "&" kv.1 ∧ free "=" kv.1 ∧ free "&" kv.2.
Proof.
  intros (_ & _ & Hplain) Hin.
  apply sortedPairs_elem in Hin as (vs & Hvs & Hv).
  destruct kv as [k v]. simpl in *.
  rewrite keyQuery_lookup in Hvs.
  destruct (bucketed ParseFloat p r k) as [z|] eqn:Hbucket.
  - injection Hvs as <-. apply list_elem_of_singleton in Hv as ->.
    unfold bucketed in Hbucket. case_decide as Hcond; [|done].
    destruct Hcond as (_ & _ & Hfull).
    unfold URL_Query in Hfull. rewrite Values_Get_ParseQuery in Hfull.
    destruct (valuesOf k (URL_pairs r)) as [|v0 vs0] eqn:Hvalues; [done|].
    assert ((k, v0) ∈ URL_pairs r) as Hkv
      by (apply valuesOf_elem; rewrite Hvalues; by left).
    destruct (Hplain _ Hkv) as (Hamp & Heq & _). simpl in *.
    split; [done|]. split; [done|]. apply FormatInt_free.
  - unfold URL_Query in Hvs. rewrite ParseQuery_lookup in Hvs.
    destruct (valuesOf k (URL_pairs r)) as [|v0 vs0] eqn:Hvalues; [done|].
    injection Hvs as <-. rewrite <-Hvalues in Hv.
    apply valuesOf_elem in Hv. apply (Hplain _ Hv).
Qed.

Lemma pairStrings_inj (l1 l2 : list (string * string)) :
  Forall (λ kv, free "=" kv.1) l1 → Forall (λ kv, free "=" kv.1) l2 →
  pairString <$> l1 = pairString <$> l2 → l1 = l2.
Proof.
  revert l2. induction l1 as [|kv1 l1 IH]; intros [|kv2 l2] H1 H2 Heq;
    try done.
  apply Forall_cons in H1 as [Hkv1 H1]. apply Forall_cons in H2 as [Hkv2 H2].
  rewrite !fmap_cons in Heq. injection Heq as Hhead Htail.
  f_equal; [by apply pairString_inj|by apply IH].
Qed.

Lemma samePairs_of_sortedPairs p r1 r2 :
  sortedPairs (keyQuery ParseFloat p r1) = sortedPairs (keyQuery ParseFloat p r2) →
  samePairs (keyQuery ParseFloat p r1) (keyQuery ParseFloat p r2).
Proof.
  intros Heq name.
  assert (keyQuery ParseFloat p r1 !!! name ≡ₚ keyQuery ParseFloat p r2 !!! name)
    as Hperm.
  { rewrite <-(sort_Strings_Permutation (_ !!! name)).
    rewrite <-(sort_Strings_Permutation (keyQuery ParseFloat p r2 !!! name)).
    by rewrite <-!sortedPairs_filter, Heq. }
  rewrite !lookup_total_alt in Hperm.
  destruct (keyQuery ParseFloat p r1 !! name) as [vs1|] eqn:H1,
    (keyQuery ParseFloat p r2 !! name) as [vs2|] eqn:H2; simpl in Hperm.
  - by constructor.
  - apply Permutation_nil_r in Hperm.
    by destruct (keyQuery_nonempty ParseFloat p r1 name vs1 H1).
  - symmetry in Hperm. apply Permutation_nil_r in Hperm.
    by destruct (keyQuery_nonempty ParseFloat p r2 name vs2 H2).
  - constructor.
Qed.

(** X17.  Among requests whose method and path hold no colon, whose
    parameter names hold neither "&" nor "=" and whose parameter values
    hold no "&", the key identifies the request: two such requests with
    one key have the same method, the same path and, after bucketing, the
    same parameters with the same values. *)
Theorem X17_key_of_plain_requests_is_injective p r1 r2 :
  plainRequest r1 → plainRequest r2 →
  generateCacheKey ParseFloat p r1 = generateCacheKey ParseFloat p r2 →
  Method r1 = Method r2
  ∧ URL_Path r1 = URL_Path r2
  ∧ sortedPairs (keyQuery ParseFloat p r1) = sortedPairs (keyQuery ParseFloat p r2)
  ∧ samePairs (keyQuery ParseFloat p r1) (keyQuery ParseFloat p r2).
Proof.
  intros Hplain1 Hplain2. rewrite !generateCacheKey_spec. intros Hkey.
  pose proof Hplain1 as (Hm1 & Hp1 & _). pose proof Hplain2 as (Hm2 & Hp2 & _).
  change (Method r1 +:+ String ":" (URL_Path r1 +:+ String ":"
            (String.concat "&"
               (pairString <$> sortedPairs (keyQuery ParseFloat p r1))))
          = Method r2 +:+ String ":" (URL_Path r2 +:+ String ":"
              (String.concat "&"
                 (pairString <$> sortedPairs (keyQuery ParseFloat p r2)))))
    in Hkey.
  destruct (split_unique _ _ _ _ _ Hm1 Hm2 Hkey) as [Hmethod Hrest].
  destruct (split_unique _ _ _ _ _ Hp1 Hp2 Hrest) as [Hpath Hquery].
  assert (∀ r, plainRequest r →
            Forall (λ x, free "&" x ∧ x ≠ "")
                   (pairString <$> sortedPairs (keyQuery ParseFloat p r))) as Hpieces.
  { intros r Hplain. apply Forall_fmap, Forall_forall. intros kv Hin.
    destruct (keyQuery_plain p r kv Hplain Hin) as (Hamp & _ & Hval). simpl.
    split; [by apply pairString_free|].
    rewrite pairString_cut. apply cut_nonempty. }
  assert (∀ r, plainRequest r →
            Forall (λ kv, free "=" kv.1)
                   (sortedPairs (keyQuery ParseFloat p r))) as Hnames.
  { intros r Hplain. apply Forall_forall. intros kv Hin.
    by destruct (keyQuery_plain p r kv Hplain Hin) as (_ & Heq & _). }
  apply concat_amp_inj in Hquery; [|by apply Hpieces..].
  apply pairStrings_inj in Hquery; [|by apply Hnames..].
  split; [done|]. split; [done|]. split; [done|].
  by apply samePairs_of_sortedPairs.
Qed.

End PlainKeys.

Section PlainKeyRuns.
Import Go proxy instances spec fixtures.

Lemma freeb_sound ch s : freeb ch s = true → free ch s.
Proof.
  induction s as [|a s IH]; simpl; [done|].
  intros [Ha Hs]%andb_true_iff. split; [|by apply IH].
  apply negb_true_iff, bool_decide_eq_false in Ha. done.
Qed.

Lemma plainRequestb_sound r : plainRequestb r = true → plainRequest r.
Proof.
  unfold plainRequestb, plainRequest.
  intros [[Hm Hp]%andb_true_iff Hpairs]%andb_true_iff.
  split; [by apply freeb_sound|]. split; [by apply freeb_sound|].
  intros kv Hin. rewrite forallb_forall in Hpairs.
  apply list_elem_of_In, Hpairs in Hin.
  apply andb_true_iff in Hin as [[H1 H2]%andb_true_iff H3].
  repeat split; by apply freeb_sound.
Qed.

(** The range query written in two orders: one key, hence one method, one
    path and the same pairs. *)
Lemma X17_witness :
  plainRequest rangeA ∧ plainRequest rangeB
  ∧ keyOf prom rangeA = keyOf prom rangeB
  ∧ sortedPairs (keyQuery parseDecimal prom rangeA)
    = sortedPairs (keyQuery parseDecimal prom rangeB).
Proof.
  assert (plainRequest rangeA) as HA
    by (apply plainRequestb_sound; vm_compute; reflexivity).
  assert (plainRequest rangeB) as HB
    by (apply plainRequestb_sound; vm_compute; reflexivity).
  assert (keyOf prom rangeA = keyOf prom rangeB) as Hkey
    by (vm_compute; reflexivity).
  destruct (X17_key_of_plain_requests_is_injective parseDecimal prom
              rangeA rangeB HA HB Hkey) as (_ & _ & Hpairs & _).
  split; [exact HA|]. split; [exact HB|]. split; [exact Hkey|exact Hpairs].
Defined.

End PlainKeyRuns.

(** ** Relaying, and the debug listing *)

Section RelayExtras.
Import Go cache proxy spec.

Variable ParseFloat : string -> option float64.
Variable Marshal    : Response -> option (list byte).
Variable Unmarshal  : list byte -> option Response.

Implicit Types (p : HTTPCacheProxy) (env : Env) (r : Request) (cch : Cache).

Local Abbreviation Handle := (HandleRequest ParseFloat Marshal Unmarshal).
Local Abbreviation keyOf := (generateCacheKey ParseFloat).
Local Abbreviation hit := (cacheHit Unmarshal).


End RelayExtras.

Section DebugListing.
Import Go cache server spec.

Variable EncodeReport : nat -> list string -> list byte.

(** X19.  The debug endpoint answers a GET with the JSON content type and
    the encoding of the number of stored items together with the stored
    keys; items that have expired and were not swept yet are counted and
    listed like the others, so the report of a cache is the same at every
    time between two writes or sweeps.  To any other method it writes
    nothing. *)
Theorem X19_debug_listing_counts_stored_items (method : string) (c : Cache)
    (w : ResponseWriter) :
  (method = "GET" →
     wBody (debugCacheHandler EncodeReport method c w)
     = wBody w ++ EncodeReport (size (items c)) (Keys c)
     ∧ Header_Values (wHeader (debugCacheHandler EncodeReport method c w))
         "Content-Type" = ["application/json"]
     ∧ (∀ key, key ∈ Keys c ↔ is_Some (items c !! key)))
  ∧ (method ≠ "GET" → debugCacheHandler EncodeReport method c w = w).
Proof.
  unfold debugCacheHandler. split.
  - intros ->. rewrite bool_decide_eq_true_2 by done.
    rewrite (proj2 (proj2 (Write_fields _ _))), (proj1 (Write_fields _ _)).
    split; [|split].
    + simpl. f_equal. f_equal.
      unfold Keys. by rewrite length_fmap, length_map_to_list.
    + unfold w_Header_Set, Header_Set; simpl.
      change (CanonicalMIMEHeaderKey "Content-Type") with "Content-Type".
      apply Header_Values_insert_eq.
    + intros key. unfold Keys. rewrite list_elem_of_fmap. split.
      * intros ([k item] & -> & Hin). apply elem_of_map_to_list in Hin.
        by exists item.
      * intros [item Hitem]. exists (key, item). split; [done|].
        by apply elem_of_map_to_list.
  - intros Hother. by rewrite bool_decide_eq_false_2.
Qed.

End DebugListing.

Section RelayRuns.
Import Go cache proxy instances spec fixtures.


End RelayRuns.

(** ** After the lifetime: the next request refreshes the item *)

Section Refresh.
Import Go cache proxy spec.

Variable ParseFloat : string -> option float64.
Variable Marshal    : Response -> option (list byte).
Variable Unmarshal  : list byte -> option Response.

Implicit Types (p : HTTPCacheProxy) (env : Env) (r : Request) (cch : Cache).

Local Abbreviation Handle := (HandleRequest ParseFloat Marshal Unmarshal).
Local Abbreviation keyOf := (generateCacheKey ParseFloat).
Local Abbreviation hit := (cacheHit Unmarshal).



End Refresh.

Section RefreshRuns.
Import Go cache proxy instances spec fixtures.


End RefreshRuns.
